(** * Superdense-coding front end: codec, one-time pad, chunk transmission,
    reconstruction and the receiver's job stream

  A shallow embedding of the pipeline code of
  [superdense-frontend/src/FullSimulation.jsx] and of the event handler of
  the [Receiver] component, together with the properties the design
  document states about them.

  Modelling conventions.
  - A JavaScript string is the list of its code units ([list ascii]; code
    units above 255 are outside the model).
  - A JavaScript Number is an exact rational ([Q]) or integer ([Z]) plus
    the special values that the code can produce ([NaN], the infinities);
    the rounding of IEEE doubles is not modelled.
  - [null]/[undefined] are [None]. *)

From Stdlib Require Import Ascii String QArith Qround Qabs Lqa.
From stdpp Require Import base tactics option list numbers strings pretty gmap.

Local Open Scope Z_scope.
Local Open Scope list_scope.

Abbreviation jsstring := (list ascii) (only parsing).

(* ================================================================== *)
(** * Part I: the program                                              *)
(* ================================================================== *)

(** ** JavaScript primitives used by the pipeline *)
Module JS.

(** A string literal. *)
Definition str (s : string) : jsstring := list_ascii_of_string s.

Definition code (c : ascii) : Z := Z.of_N (N_of_ascii c).

(** Numbers that are not necessarily integers. *)
Inductive number : Type :=
  | NaN
  | PosInf
  | NegInf
  | Fin (q : Q).

(** [s[i]] for an integer index: [undefined] outside the string. *)
Definition char_at (s : jsstring) (i : Z) : option ascii :=
  if i <? 0 then None else s !! Z.to_nat i.

(** [s.slice(a, b)] for non-negative indices. *)
Definition slice (a b : nat) (s : jsstring) : jsstring :=
  take (b - a)%nat (drop a s).

Definition padStart (n : nat) (c : ascii) (s : jsstring) : jsstring :=
  replicate (n - length s)%nat c ++ s.

Definition padEnd (n : nat) (c : ascii) (s : jsstring) : jsstring :=
  s ++ replicate (n - length s)%nat c.

(** [parts.join(sep)] *)
Fixpoint join (sep : jsstring) (parts : list jsstring) : jsstring :=
  match parts with
  | [] => []
  | [p] => p
  | p :: rest => p ++ sep ++ join sep rest
  end.

(** White space skipped by [parseInt] (the code units below 256). *)
Definition is_space (c : ascii) : bool :=
  let n := code c in
  ((9 <=? n) && (n <=? 13)) || (n =? 32) || (n =? 160).

Fixpoint skip_space (s : jsstring) : jsstring :=
  match s with
  | c :: r => if is_space c then skip_space r else s
  | [] => []
  end.

(** Value of a digit in a radix of at most ten. *)
Definition digit_val (radix : Z) (c : ascii) : option Z :=
  let n := code c in
  if (48 <=? n) && (n <? 48 + radix) then Some (n - 48) else None.

(** The longest prefix of digits; [acc] is [None] until a digit is read. *)
Fixpoint parse_digits (radix : Z) (acc : option Z) (s : jsstring) : option Z :=
  match s with
  | [] => acc
  | c :: r =>
      match digit_val radix c with
      | Some d => parse_digits radix (Some (radix * default 0 acc + d)) r
      | None => acc
      end
  end.

(** [parseInt(s, radix)] for [2 <= radix <= 10]; [None] is [NaN].  With
    the radix left out, JavaScript uses ten unless the string starts with
    [0x]; the pipeline only leaves it out on one-character strings. *)
Definition parseInt (s : jsstring) (radix : Z) : option Z :=
  match skip_space s with
  | "-"%char :: r => Z.opp <$> parse_digits radix None r
  | "+"%char :: r => parse_digits radix None r
  | r => parse_digits radix None r
  end.

(** [parseInt(s[i])]: an [undefined] argument is first turned into the
    string ["undefined"]. *)
Definition parseInt_char (c : option ascii) : option Z :=
  match c with
  | Some c => parseInt [c] 10
  | None => parseInt (str "undefined") 10
  end.

(** [ToInt32]: [NaN] becomes [0], integers wrap to 32 bits, signed. *)
Definition ToInt32 (n : option Z) : Z :=
  match n with
  | None => 0
  | Some z => (z + 2 ^ 31) mod 2 ^ 32 - 2 ^ 31
  end.

(** [a ^ b] *)
Definition xor (a b : option Z) : Z := Z.lxor (ToInt32 a) (ToInt32 b).

(** [n.toString()] of an integer (below 1e21 in size, where JavaScript
    still prints every digit). *)
Definition toString (z : Z) : jsstring := list_ascii_of_string (pretty z).

Fixpoint pos_bits (p : positive) : jsstring :=
  match p with
  | xH => ["1"%char]
  | xO q => pos_bits q ++ ["0"%char]
  | xI q => pos_bits q ++ ["1"%char]
  end.

(** [n.toString(2)] of an integer: no exponent, a minus sign when
    negative, as many digits as the magnitude needs. *)
Definition toString2 (z : Z) : jsstring :=
  match z with
  | Z0 => ["0"%char]
  | Zpos p => pos_bits p
  | Zneg p => "-"%char :: pos_bits p
  end.

(** [Math.round]: the nearest integer, halves going up. *)
Definition round (x : Q) : Z := Qfloor (x + (1 # 2))%Q.

(** [a / b] on integers. *)
Definition div (a b : Z) : number :=
  if b =? 0 then
    if a =? 0 then NaN else if 0 <? a then PosInf else NegInf
  else Fin (inject_Z a / inject_Z b)%Q.

(** [x * k] for a positive constant [k]. *)
Definition scale (x : number) (k : Z) : number :=
  match x with
  | Fin q => Fin (q * inject_Z k)%Q
  | other => other
  end.

End JS.

(** ** BinaryCodec: [floatToBinary], [binaryToFloat], [binaryToLatLon]
    (FullSimulation.jsx, lines 107-142 and 314-317) *)
Module Codec.
Import JS.

Definition floatToBinary (value : Q) (bits : nat) : jsstring :=
  let intVal := round ((value + 180) * 100000)%Q in
  let bin := toString2 intVal in
  padStart bits "0" bin.

(** [None] is [null]. *)
Definition binaryToFloat (bin : jsstring) : option number :=
  match bin with
  | [] => None
  | _ =>
      match parseInt bin 2 with
      | None => Some NaN
      | Some intVal => Some (Fin (inject_Z intVal / 100000 - 180)%Q)
      end
  end.

Record LatLon : Type := mkLatLon {
  lat : option number;
  lon : option number;
  restricted : option jsstring
  }.

Definition binaryToLatLon (binary : jsstring) : LatLon :=
  if (length binary <? 1)%nat then mkLatLon None None None
  else
    let restrictedBit :=
      if (65 <=? length binary)%nat then binary !! 64%nat else Some "0"%char in
    let restricted :=
      if bool_decide (restrictedBit = Some "1"%char) then str "Yes" else str "No" in
    if (length binary <? 65)%nat then mkLatLon None None (Some restricted)
    else
      let latBin := slice 0 32 binary in
      let lonBin := slice 32 64 binary in
      mkLatLon (binaryToFloat latBin) (binaryToFloat lonBin) (Some restricted).

(** The record encoding of [handleRunFullSimulation]: a [null] coordinate
    is sent as thirty-two zeros. *)
Definition combinedBin (predictedLat predictedLon : option Q)
    (predictedRestricted : option jsstring) : jsstring :=
  let latBin := match predictedLat with
                | Some v => floatToBinary v 32
                | None => padStart 32 "0" []
                end in
  let lonBin := match predictedLon with
                | Some v => floatToBinary v 32
                | None => padStart 32 "0" []
                end in
  let restrictedBin :=
    if bool_decide (predictedRestricted = Some (str "Yes")) then str "1" else str "0" in
  latBin ++ lonBin ++ restrictedBin.

End Codec.

(** ** OneTimePad: [oneTimePadEncrypt], [oneTimePadDecrypt]
    (FullSimulation.jsx, lines 144-164) *)
Module OTP.
Import JS.

(** The body of the [for] loop, from index [i] on; [cs] holds the
    characters [chunk[i]], [chunk[i+1]], ... still to be visited. *)
Fixpoint pad_from (key : jsstring) (keyOffset : Z) (i : Z) (cs : jsstring) : jsstring :=
  match cs with
  | [] => []
  | c :: rest =>
      let keyBit := char_at key (Z.rem (keyOffset + i) (Z.of_nat (length key))) in
      toString (xor (parseInt_char (Some c)) (parseInt_char keyBit))
        ++ pad_from key keyOffset (i + 1) rest
  end.

Definition oneTimePadEncrypt (chunk key : jsstring) (keyOffset : Z) : jsstring :=
  match key, chunk with
  | [], _ | _, [] => chunk
  | _, _ => pad_from key keyOffset 0 chunk
  end.

Definition oneTimePadDecrypt (encryptedChunk key : jsstring) (keyOffset : Z) : jsstring :=
  match key, encryptedChunk with
  | [], _ | _, [] => encryptedChunk
  | _, _ => pad_from key keyOffset 0 encryptedChunk
  end.

End OTP.

(** ** ChunkTransmitter: [processSuperdenseCoding]
    (FullSimulation.jsx, lines 166-268, and config.js) *)
Module Transmit.
Import JS OTP.

(** The splitting loop [for (i = 0; i < binaryData.length; i += 2)];
    [fuel] bounds the number of iterations. *)
Fixpoint chunk_loop (fuel : nat) (binaryData : jsstring) (i : nat)
    (chunks : list jsstring) : list jsstring :=
  match fuel with
  | O => chunks
  | S fuel' =>
      if (i <? length binaryData)%nat then
        let chunk := padEnd 2 "0" (slice i (i + 2) binaryData) in
        chunk_loop fuel' binaryData (i + 2) (chunks ++ [chunk])
      else chunks
  end.

Definition split_chunks (binaryData : jsstring) : list jsstring :=
  chunk_loop (length binaryData) binaryData 0 [].

(** [(idx * 2) % qkdKey.length]; the function has returned before this
    line when the key is empty, so the divisor is never zero here. *)
Definition key_offset (idx : nat) (qkdKey : jsstring) : Z :=
  Z.rem (Z.of_nat idx * 2) (Z.of_nat (length qkdKey)).

Definition encrypt_chunks (chunks : list jsstring) (qkdKey : jsstring) : list jsstring :=
  imap (fun idx ch => oneTimePadEncrypt ch qkdKey (key_offset idx qkdKey)) chunks.

(** [config.errorCorrection] *)
Record ErrorCorrectionConfig : Type := mkConfig {
  baseURL : jsstring;
  compareCorrected : jsstring;
  fallbackURLs : list jsstring
  }.

Definition config : ErrorCorrectionConfig :=
  {| baseURL := str "http://localhost:5008";
     compareCorrected := str "/compare33_corrected";
     fallbackURLs := [str "http://127.0.0.1:5008"] |}.

Definition urlsToTry (cfg : ErrorCorrectionConfig) : list jsstring :=
  (baseURL cfg ++ compareCorrected cfg)
    :: map (fun url => url ++ compareCorrected cfg) (fallbackURLs cfg).

(** One element of [corrected_messages]; an absent field is [None]. *)
Record BackendItem : Type := mkItem {
  corrected_message : option jsstring;
  item_fidelity : option Q
  }.

(** The parsed response body. A [null] array element is [None]. *)
Record ResponseData : Type := mkData {
  corrected_messages : option (list (option BackendItem));
  data_fidelities_shor : option (list Q);
  data_fidelities_noisy : option (list Q);
  data_fidelities_ideal : option (list Q);
  data_fidelity_graph : option jsstring
  }.

Record Request : Type := mkRequest {
  bits : list jsstring;
  req_shots : Z;
  req_p_error : Q
  }.

(** What one [fetch] attempt inside the [try] block comes to. *)
Inductive FetchOutcome : Type :=
  | FetchRejected (message : jsstring)
    (* [fetch] throws: no connection, or the abort after the timeout *)
  | HttpFailure (errorMessage : option jsstring) (status : Z) (statusText : jsstring)
    (* [!response.ok]; [errorMessage] is [errorData.message] *)
  | BodyRejected (message : jsstring)
    (* [response.ok], but reading or using the body throws *)
  | HttpOk (data : ResponseData).

Inductive Status : Type := OK | Failed.

Record TransmissionResult : Type := mkResult {
  index : nat;
  originalChunk : jsstring;
  encryptedChunk : jsstring;
  receivedChunk : jsstring;
  status : Status;
  fidelity : Q;
  keyOffset : Z
  }.

Record SdcResults : Type := mkSdc {
  originalChunks : list jsstring;
  encryptedChunks : list jsstring;
  transmissionResults : list TransmissionResult;
  totalChunks : nat;
  successfulTransmissions : nat;
  fidelities_shor : list Q;
  fidelities_noisy : list Q;
  fidelities_ideal : list Q;
  fidelity_graph : option jsstring
  }.

(** The callback of [encryptedChunks.map] that builds one result. *)
Definition transmission_result (chunks : list jsstring) (qkdKey : jsstring)
    (correctedMessages : list (option BackendItem))
    (idx : nat) (encryptedChunk : jsstring) : TransmissionResult :=
  let originalChunk :=
    match chunks !! idx with
    | Some (c :: r) => c :: r
    | _ => str "00"
    end in
  let keyOffset := key_offset idx qkdKey in
  let backendItem :=
    match correctedMessages !! idx with
    | Some (Some item) => item
    | _ => mkItem None None
    end in
  let receivedChunk := default encryptedChunk (corrected_message backendItem) in
  let fidelity := default 0%Q (item_fidelity backendItem) in
  let status := if Qle_bool 50 fidelity then OK else Failed in
  mkResult idx originalChunk encryptedChunk receivedChunk status fidelity keyOffset.

Definition is_OK (r : TransmissionResult) : bool :=
  match status r with OK => true | Failed => false end.

Definition build_results (chunks encryptedChunks : list jsstring) (qkdKey : jsstring)
    (data : ResponseData) : SdcResults :=
  let correctedMessages := default [] (corrected_messages data) in
  let transmissionResults :=
    imap (transmission_result chunks qkdKey correctedMessages) encryptedChunks in
  let successfulTransmissions := length (filter (fun r => is_OK r = true) transmissionResults) in
  {| originalChunks := chunks;
     encryptedChunks := encryptedChunks;
     transmissionResults := transmissionResults;
     totalChunks := length chunks;
     successfulTransmissions := successfulTransmissions;
     fidelities_shor := default [] (data_fidelities_shor data);
     fidelities_noisy := default [] (data_fidelities_noisy data);
     fidelities_ideal := default [] (data_fidelities_ideal data);
     fidelity_graph := data_fidelity_graph data |}.

(** [a || b] on strings that may be [undefined]. *)
Definition or_else (a : option jsstring) (b : jsstring) : jsstring :=
  match a with
  | Some (c :: r) => c :: r
  | _ => b
  end.

(** The message of the error that reaches the [catch] block. *)
Definition caught_message (url : jsstring) (o : FetchOutcome) : jsstring :=
  match o with
  | FetchRejected m => m
  | HttpFailure errorMessage status statusText =>
      or_else errorMessage
        (str "Backend error (" ++ url ++ str "): " ++ toString status
           ++ str " " ++ statusText)
  | BodyRejected m => m
  | HttpOk _ => []
  end.

(** The three console lines of the loop. *)
Inductive ConsoleLine : Type :=
  | Trying (url : jsstring)
  | Connected (url : jsstring)
  | FailedTo (url : jsstring) (message : jsstring).

(** The function either returns or throws an [Error] with a message. *)
Inductive Completion (A : Type) : Type :=
  | Return (a : A)
  | Throw (message : jsstring).
Arguments Return {A} a.
Arguments Throw {A} message.

Definition unavailable (urls : list jsstring) (lastError : option jsstring) : jsstring :=
  str "Failed to connect to any error correction service. "
    ++ str "Tried: " ++ join (str ", ") urls ++ str ". "
    ++ str "Last error: " ++ or_else lastError (str "Unknown error").

Section Network.
(** The network is a state that answers each request and moves on. *)
Context {World : Type}.
Variable fetch : World -> jsstring -> Request -> FetchOutcome * World.

Record Env : Type := mkEnv { network : World; console : list ConsoleLine }.

Definition M (A : Type) : Type := Env -> A * Env.
Definition ret {A} (a : A) : M A := fun e => (a, e).
Definition bind {A B} (m : M A) (k : A -> M B) : M B :=
  fun e => let (a, e') := m e in k a e'.
Definition log (l : ConsoleLine) : M unit :=
  fun e => (tt, mkEnv (network e) (console e ++ [l])).
Definition do_fetch (url : jsstring) (req : Request) : M FetchOutcome :=
  fun e => let (o, w) := fetch (network e) url req in (o, mkEnv w (console e)).

Local Notation "x <- m ;; k" := (bind m (fun x => k))
  (at level 100, m at next level, right associativity).
Local Notation "m ;; k" := (bind m (fun _ => k))
  (at level 100, right associativity).

(** [for (const url of urlsToTry) { try { ... } catch { ... } }] followed
    by the final [throw]; [all] is the whole of [urlsToTry]. *)
Fixpoint try_urls (all : list jsstring) (req : Request)
    (finish : ResponseData -> SdcResults)
    (urls : list jsstring) (lastError : option jsstring)
    : M (Completion (option SdcResults)) :=
  match urls with
  | [] => ret (Throw (unavailable all lastError))
  | url :: rest =>
      log (Trying url) ;;
      o <- do_fetch url req ;;
      match o with
      | HttpOk data =>
          log (Connected url) ;;
          ret (Return (Some (finish data)))
      | failure =>
          let message := caught_message url failure in
          log (FailedTo url message) ;;
          try_urls all req finish rest (Some message)
      end
  end.

Definition processSuperdenseCoding (cfg : ErrorCorrectionConfig)
    (binaryData qkdKey : jsstring) (p_error : Q) (shots : Z)
    : M (Completion (option SdcResults)) :=
  match binaryData, qkdKey with
  | [], _ | _, [] => ret (Return None)
  | _, _ =>
      let chunks := split_chunks binaryData in
      let encryptedChunks := encrypt_chunks chunks qkdKey in
      let urls := urlsToTry cfg in
      try_urls urls (mkRequest encryptedChunks shots p_error)
        (build_results chunks encryptedChunks qkdKey) urls None
  end.

End Network.

(** The endpoints the console shows as tried, in order. *)
Definition attempts (lines : list ConsoleLine) : list jsstring :=
  omap (fun l => match l with Trying url => Some url | _ => None end) lines.

End Transmit.

(** ** MessageReconstructor: [reconstructBinaryData]
    (FullSimulation.jsx, lines 270-298) *)
Module Reconstruct.
Import JS OTP Transmit.

Definition reconstruct_chunk (qkdKey : jsstring) (result : TransmissionResult) : jsstring :=
  match status result with
  | OK => oneTimePadDecrypt (receivedChunk result) qkdKey (keyOffset result)
  | Failed => or_else (Some (originalChunk result)) (str "00")
  end.

Definition reconstructBinaryData (sdcResults : option SdcResults) (qkdKey : jsstring)
    : jsstring :=
  match sdcResults, qkdKey with
  | None, _ | _, [] => []
  | Some sdc, _ => concat (map (reconstruct_chunk qkdKey) (transmissionResults sdc))
  end.

End Reconstruct.

(** ** JobStreamConsumer: the [EventSource] handlers that
    [fetchDecodedJobs] installs in the [Receiver] component *)
Module Receiver.
Import JS.

(** An entry of [progressLogs]; the informational entries carry no
    [job_id]. *)
Record LogEntry : Type := mkLog {
  job_id : option jsstring;
  type : jsstring;
  message : jsstring
  }.

(** [log => log.job_id === data.job_id] *)
Definition same_job (id : jsstring) (l : LogEntry) : Prop := job_id l = Some id.

#[global] Instance same_job_dec (id : jsstring) (l : LogEntry) : Decision (same_job id l) :=
  decide (job_id l = Some id).

Section Stream.
(** The decoded record carried by a [done] event. *)
Context {Result : Type}.

Record State : Type := mkState {
  decodedResult : option Result;
  progressLogs : list LogEntry;
  loading : bool;
  error : option jsstring;
  progress : number;
  connected : bool   (* the [EventSource] has not been closed *)
    }.

(** The parsed [event.data]. *)
Inductive Data : Type :=
    | start (total_jobs : Z)
    | progress_event (id : jsstring) (current_job total_jobs : Z)
    (status : option jsstring) (msg : jsstring)
    | done (result : Result)
    | error_event (msg : jsstring)
    | other.

(** What the [EventSource] can deliver. *)
Inductive Signal : Type :=
    | onopen
    | onmessage (data : Data)
    | onerror.

(** The state [fetchDecodedJobs] sets before it opens the stream. *)
Definition initial : State :=
  {| decodedResult := None; progressLogs := []; loading := true;
     error := None; progress := Fin 0; connected := true |}.

Definition info (m : jsstring) : LogEntry := mkLog None (str "info") m.

Definition with_logs (s : State) (logs : list LogEntry) : State :=
  {| decodedResult := decodedResult s; progressLogs := logs;
     loading := loading s; error := error s; progress := progress s;
     connected := connected s |}.

Definition newLog (id : jsstring) (current_job total_jobs : Z)
    (status : option jsstring) (msg : jsstring) : LogEntry :=
  {| job_id := Some id;
     type := match status with
             | Some (c :: r) => c :: r
             | _ => str "progress"
             end;
     message := str "[" ++ toString current_job ++ str "/" ++ toString total_jobs
                  ++ str "] Job " ++ slice 0 10 id ++ str "...: " ++ msg |}.

(** The updater passed to [setProgressLogs] on a progress event. *)
Definition upsert (id : jsstring) (entry : LogEntry) (prev : list LogEntry)
    : list LogEntry :=
  match list_find (same_job id) prev with
  | Some (existingLogIndex, _) => <[existingLogIndex := entry]> prev
  | None => prev ++ [entry]
  end.

Definition handle_message (s : State) (data : Data) : State :=
  match data with
  | start total_jobs =>
      with_logs s (progressLogs s ++
        [info (str "Found " ++ toString total_jobs ++ str " jobs to process.")])
  | progress_event id current_job total_jobs status msg =>
      {| decodedResult := decodedResult s;
         progressLogs :=
           upsert id (newLog id current_job total_jobs status msg) (progressLogs s);
         loading := loading s;
         error := error s;
         progress := scale (div current_job total_jobs) 100;
         connected := connected s |}
  | done result =>
      {| decodedResult := Some result;
         progressLogs := progressLogs s ++
           [mkLog None (str "success") (str "All jobs processed successfully!")];
         loading := false;
         error := error s;
         progress := Fin 100;
         connected := false |}
  | error_event msg =>
      {| decodedResult := decodedResult s;
         progressLogs := progressLogs s ++
           [mkLog None (str "error") (str "ERROR: " ++ msg)];
         loading := false;
         error := Some msg;
         progress := progress s;
         connected := false |}
  | other => s
  end.

(** One delivery; a closed [EventSource] delivers nothing. *)
Definition step (s : State) (e : Signal) : State :=
  if connected s then
    match e with
    | onopen =>
        with_logs s (progressLogs s ++
          [info (str "Connection opened. Searching for pending jobs...")])
    | onmessage data => handle_message s data
    | onerror =>
        {| decodedResult := decodedResult s;
           progressLogs := progressLogs s;
           loading := false;
           error := Some (str
             "Connection to the server failed. Make sure the backend is running.");
           progress := progress s;
           connected := false |}
    end
  else s.

Definition run (s : State) (events : list Signal) : State :=
  foldl step s events.

(** The job ids of the entries that have one, in log order. *)
Definition job_ids (logs : list LogEntry) : list jsstring := omap job_id logs.

End Stream.
Arguments State : clear implicits.
Arguments Data : clear implicits.
Arguments Signal : clear implicits.

End Receiver.


(** ** Vocabulary of the properties *)
Module Props.
Import JS.

(** A bit string holds only the characters [0] and [1]. *)
Definition is_bit (c : ascii) : Prop := c = "0"%char \/ c = "1"%char.

Definition bitstring (s : jsstring) : Prop := Forall is_bit s.

(** The character one pad step writes for a data bit [c] and the key
    character [keyBit]. *)
Definition pad_char (c : ascii) (keyBit : option ascii) : ascii :=
  hd "0"%char (toString (xor (parseInt_char (Some c)) (parseInt_char keyBit))).

(** Splitting two characters at a time, by recursion on the string. *)
Fixpoint chunks_of (s : jsstring) : list jsstring :=
  match s with
  | [] => []
  | [a] => [[a; "0"%char]]
  | a :: b :: r => [a; b] :: chunks_of r
  end.

(** The value of a string of bits read as a binary numeral. *)
Definition bit_val (c : ascii) : Z := if bool_decide (c = "1"%char) then 1 else 0.

Definition bin_value (s : jsstring) : Z := foldl (fun acc c => 2 * acc + bit_val c) 0 s.

(** The two strings the page uses for the restricted-airspace flag. *)
Definition yes_no (b : bool) : jsstring := if b then str "Yes" else str "No".

(** A transmission result as the data model has it: the plain chunk has
    two characters, and a chunk received in good order is two bits. *)
Definition two_bit_result (r : Transmit.TransmissionResult) : Prop :=
  length (Transmit.originalChunk r) = 2%nat /\
  (Transmit.status r = Transmit.OK ->
     length (Transmit.receivedChunk r) = 2%nat /\ bitstring (Transmit.receivedChunk r)).

(** The reconstruction rule of the design document for one chunk. *)
Definition expected_chunk (qkdKey : jsstring) (r : Transmit.TransmissionResult) : jsstring :=
  match Transmit.status r with
  | Transmit.OK =>
      OTP.oneTimePadDecrypt (Transmit.receivedChunk r) qkdKey (Transmit.keyOffset r)
  | Transmit.Failed => Transmit.originalChunk r
  end.

(** An attempt that ends in the [catch] block. *)
Definition is_failure (o : Transmit.FetchOutcome) : Prop :=
  match o with
  | Transmit.HttpOk _ => False
  | _ => True
  end.

(** What the candidates answer when they are asked one after the other. *)
Fixpoint responses {World : Type}
    (fetch : World -> jsstring -> Transmit.Request -> Transmit.FetchOutcome * World)
    (w : World) (req : Transmit.Request) (urls : list jsstring)
    : list Transmit.FetchOutcome :=
  match urls with
  | [] => []
  | url :: rest =>
      let (o, w') := fetch w url req in o :: responses fetch w' req rest
  end.

(** The message of the last error caught, [init] when nothing was tried. *)
Definition last_message (urls : list jsstring) (rs : list Transmit.FetchOutcome)
    (init : option jsstring) : option jsstring :=
  match last (zip_with Transmit.caught_message urls rs) with
  | Some m => Some m
  | None => init
  end.

(** A run of ten chunks in which the backend reports a low fidelity for
    chunk 3 only. *)
Definition ten_chunks : Transmit.SdcResults :=
  let chunks := Transmit.split_chunks (str "01101100101101001110") in
  Transmit.build_results chunks (Transmit.encrypt_chunks chunks (str "101")) (str "101")
    (Transmit.mkData
       (Some (imap (fun i enc =>
                      Some (Transmit.mkItem (Some enc)
                              (Some (if (i =? 3)%nat then 12%Q else 97%Q))))
                (Transmit.encrypt_chunks chunks (str "101"))))
       None None None None).

(** A network whose primary endpoint times out and whose fallback answers;
    the state counts the requests made. *)
Definition flaky_network (w : nat) (url : jsstring) (req : Transmit.Request)
    : Transmit.FetchOutcome * nat :=
  (if bool_decide (url = str "http://localhost:5008/compare33_corrected")
   then Transmit.FetchRejected (str "The operation was aborted.")
   else Transmit.HttpOk
          (Transmit.mkData (Some [Some (Transmit.mkItem None (Some 80%Q))])
             None None None None),
   S w).

(** A network on which every request fails. *)
Definition dead_network (w : nat) (url : jsstring) (req : Transmit.Request)
    : Transmit.FetchOutcome * nat :=
  (Transmit.FetchRejected (str "Failed to fetch"), S w).




End Props.

(** ** The character pad of the page: [otpEncrypt], [otpDecrypt]
    (FullSimulation.jsx, lines 9-25) *)
Module CharPad.
Import JS.

(** [String.fromCharCode(n)]: the code unit [n mod 2^16].  The code
    units of the model end at 255; the pad never leaves them (lemma
    [pad_code_small]). *)
Definition fromCharCode (n : Z) : ascii := ascii_of_N (Z.to_N (n mod 2 ^ 16)).

(** The body of the [for] loop from index [i] on. *)
Fixpoint char_pad_from (key : jsstring) (i : Z) (cs : jsstring) : jsstring :=
  match cs with
  | [] => []
  | c :: rest =>
      let messageChar := code c in
      let keyBit := parseInt_char (char_at key (Z.rem i (Z.of_nat (length key)))) in
      let encryptedChar := xor (Some messageChar) keyBit in
      fromCharCode encryptedChar :: char_pad_from key (i + 1) rest
  end.

Definition otpEncrypt (message key : jsstring) : jsstring :=
  match key with
  | [] => message
  | _ => char_pad_from key 0 message
  end.


End CharPad.

(** ** The page handler: error probability, averages and
    [handleRunFullSimulation] (FullSimulation.jsx, lines 304-418) *)
Module Page.
Import JS Codec OTP Transmit Reconstruct CharPad.

(** [Math.abs] *)
Definition abs (x : number) : number :=
  match x with
  | NaN => NaN
  | PosInf | NegInf => PosInf
  | Fin q => Fin (Qabs q)
  end.

(** [x <= c] and [x < c] for a finite constant [c]; a comparison with [NaN]
    is false. *)
Definition le_const (x : number) (c : Q) : bool :=
  match x with
  | NaN | PosInf => false
  | NegInf => true
  | Fin q => Qle_bool q c
  end.

Definition lt_const (x : number) (c : Q) : bool :=
  match x with
  | NaN | PosInf => false
  | NegInf => true
  | Fin q => negb (Qle_bool c q)
  end.

(** The error probability picked from the stored CHSH value (lines
    324-334); [None] is the [null] of a value never stored. *)
Definition p_error (chshValue : option number) : Q :=
  match chshValue with
  | None => (5 # 100)%Q
  | Some v =>
      if le_const (abs v) 2%Q then (25 # 100)%Q
      else if lt_const (abs v) (24 # 10)%Q then (12 # 100)%Q
      else (3 # 100)%Q
  end.

(** [calculateAverage] (lines 352-356) *)
Definition calculateAverage (arr : list Q) : Q :=
  match arr with
  | [] => 0%Q
  | _ =>
      let sum := foldl Qplus 0%Q arr in
      (sum / inject_Z (Z.of_nat (length arr)))%Q
  end.

(** What the handler reads: the stored key and the state of the page. *)
Record Inputs : Type := mkInputs {
  storedQkdKey : option jsstring;      (* [localStorage.getItem('qkdKey')] *)
  predictedLat : option Q;
  predictedLon : option Q;
  predictedRestricted : option jsstring;
  chshValue : option number;
  bellViolated : option bool
}.

(** The object of the last [setResults]; it replaces the one of the
    functional update just before it. *)
Record Results : Type := mkResults {
  qkd_key : jsstring;
  chsh_S : option number;
  bell_violated : option bool;
  communication_status : jsstring;
  encrypted_message : list TransmissionResult;
  transmission_method : jsstring
}.

(** The state the handler writes.  [transmissionData] and
    [encryptedCombinedBinary], which only repeat values kept here, are left
    out; [storedEncryptedBinary] is the [localStorage] item
    [encryptedBinary]. *)
Record PageState : Type := mkPage {
  isLoading : bool;
  error : option jsstring;
  combinedBinary : jsstring;
  encryptedMessage : jsstring;
  sdcResults : option SdcResults;
  avgFidelityIdeal : option Q;
  avgFidelityNoisy : option Q;
  avgFidelityShor : option Q;
  decryptedMessage : jsstring;
  encryptedBinaryDisplay : jsstring;
  storedEncryptedBinary : option jsstring;
  decryptedRestricted : option jsstring;
  results : option Results
}.

(** The page before the first run. *)
Definition fresh : PageState :=
  {| isLoading := false; error := None; combinedBinary := []; encryptedMessage := [];
     sdcResults := None; avgFidelityIdeal := None; avgFidelityNoisy := None;
     avgFidelityShor := None; decryptedMessage := []; encryptedBinaryDisplay := [];
     storedEncryptedBinary := None; decryptedRestricted := None; results := None |}.

(** [catch (err) { setError(err.message || ...) } finally { setIsLoading(false) }] *)
Definition caught (st : PageState) (message : jsstring) : PageState :=
  {| isLoading := false;
     error := Some (or_else (Some message)
                      (str "Network error: Unable to connect to backend"));
     combinedBinary := combinedBinary st; encryptedMessage := encryptedMessage st;
     sdcResults := sdcResults st; avgFidelityIdeal := avgFidelityIdeal st;
     avgFidelityNoisy := avgFidelityNoisy st; avgFidelityShor := avgFidelityShor st;
     decryptedMessage := decryptedMessage st;
     encryptedBinaryDisplay := encryptedBinaryDisplay st;
     storedEncryptedBinary := storedEncryptedBinary st;
     decryptedRestricted := decryptedRestricted st; results := results st |}.

(** [setCombinedBinary(combinedBin); setEncryptedMessage(encryptedBinChars)]
    after [setIsLoading(true); setError(null)]. *)
Definition prepared (st : PageState) (combinedBin encryptedBinChars : jsstring) : PageState :=
  {| isLoading := true; error := None;
     combinedBinary := combinedBin; encryptedMessage := encryptedBinChars;
     sdcResults := sdcResults st; avgFidelityIdeal := avgFidelityIdeal st;
     avgFidelityNoisy := avgFidelityNoisy st; avgFidelityShor := avgFidelityShor st;
     decryptedMessage := decryptedMessage st;
     encryptedBinaryDisplay := encryptedBinaryDisplay st;
     storedEncryptedBinary := storedEncryptedBinary st;
     decryptedRestricted := decryptedRestricted st; results := results st |}.

(** The part of the [try] block after a result has come back. *)
Definition completed (inp : Inputs) (st : PageState) (key : jsstring)
    (sdcRes : SdcResults) : PageState :=
  let reconstructedBinary := reconstructBinaryData (Some sdcRes) key in
  let encryptedBinary := concat (map receivedChunk (transmissionResults sdcRes)) in
  let coordinates := binaryToLatLon reconstructedBinary in
  {| isLoading := false; error := None;
     combinedBinary := combinedBinary st; encryptedMessage := encryptedMessage st;
     sdcResults := Some sdcRes;
     avgFidelityIdeal := Some (calculateAverage (fidelities_ideal sdcRes));
     avgFidelityNoisy := Some (calculateAverage (fidelities_noisy sdcRes));
     avgFidelityShor := Some (calculateAverage (fidelities_shor sdcRes));
     decryptedMessage := reconstructedBinary;
     encryptedBinaryDisplay := encryptedBinary;
     storedEncryptedBinary := Some encryptedBinary;
     decryptedRestricted := restricted coordinates;
     results := Some
       {| qkd_key := key; chsh_S := chshValue inp; bell_violated := bellViolated inp;
          communication_status :=
            toString (Z.of_nat (successfulTransmissions sdcRes)) ++ str "/"
              ++ toString (Z.of_nat (totalChunks sdcRes))
              ++ str " qubits transmitted successfully";
          encrypted_message := transmissionResults sdcRes;
          transmission_method := str "Superdense Coding Protocol (Shor 9-qubit corrected)" |}
  |}.

Section Handler.
Context {World : Type}.
Variable fetch : World -> jsstring -> Request -> FetchOutcome * World.

Definition handleRunFullSimulation (cfg : ErrorCorrectionConfig) (inp : Inputs)
    (st : PageState) : @M World PageState :=
  let st0 := prepared st (combinedBinary st) (encryptedMessage st) in
  match storedQkdKey inp with
  | None | Some [] =>
      ret (caught st0 (str
        "No QKD key available. Please generate a key first from QKD Simulation."))
  | Some storedQkdKey =>
      let combinedBin :=
        combinedBin (predictedLat inp) (predictedLon inp) (predictedRestricted inp) in
      let encryptedBinChars := otpEncrypt combinedBin storedQkdKey in
      let st1 := prepared st combinedBin encryptedBinChars in
      bind (processSuperdenseCoding fetch cfg combinedBin storedQkdKey
              (p_error (chshValue inp)) 1024)
        (fun outcome =>
           match outcome with
           | Throw message =>
               ret (caught st1 (str "Error during quantum transmission: " ++ message))
           | Return None =>
               ret (caught st1 (str "SDC transmission failed: No response from server"))
           | Return (Some sdcRes) => ret (completed inp st1 storedQkdKey sdcRes)
           end)
  end.

End Handler.

End Page.

(** ** The IBM page: [toBinary], [splitIntoChunks] and the chunk list of
    [handleSend] (HomePage.jsx, lines 511-548) *)
Module IbmCloud.
Import JS.

Definition is_digit (c : ascii) : bool := (48 <=? code c) && (code c <=? 57).

(** The longest prefix of decimal digits, and what follows it. *)
Fixpoint span_digits (s : jsstring) : jsstring * jsstring :=
  match s with
  | c :: r =>
      if is_digit c then let (ds, rest) := span_digits r in (c :: ds, rest)
      else ([], s)
  | [] => ([], [])
  end.

Definition decimal (ds : jsstring) : Z :=
  foldl (fun acc c => 10 * acc + (code c - 48)) 0 ds.

(** A sign, if there is one, and what follows it. *)
Definition take_sign (s : jsstring) : bool * jsstring :=
  match s with
  | "-"%char :: r => (true, r)
  | "+"%char :: r => (false, r)
  | _ => (false, s)
  end.

(** The exponent part [e], [e+] or [e-] with digits; 0 when there is none. *)
Definition exponent (s : jsstring) : Z :=
  match s with
  | c :: r =>
      if bool_decide (c = "e"%char \/ c = "E"%char) then
        let (negative, r') := take_sign r in
        match fst (span_digits r') with
        | [] => 0
        | ed => if negative then - decimal ed else decimal ed
        end
      else 0
  | [] => 0
  end.

(** [parseFloat(s)]: leading white space, a sign, then [Infinity] or the
    longest decimal literal; [NaN] when there is none. *)
Definition parseFloat (s : jsstring) : number :=
  let (negative, s1) := take_sign (skip_space s) in
  if bool_decide (take 8 s1 = str "Infinity") then
    if negative then NegInf else PosInf
  else
    let (ip, r1) := span_digits s1 in
    let (fp, r2) := match r1 with
                    | "."%char :: r => span_digits r
                    | _ => ([], r1)
                    end in
    match ip ++ fp with
    | [] => NaN
    | ds =>
        let magnitude :=
          (inject_Z (decimal ds) * 10 ^ (exponent r2 - Z.of_nat (length fp)))%Q in
        Fin (if negative then - magnitude else magnitude)%Q
    end.

(** [Math.round] on a number that may be [NaN] or infinite. *)
Definition round_number (x : number) : number :=
  match x with
  | Fin q => Fin (inject_Z (round q))
  | other => other
  end.

(** [x >>> 0]: [ToUint32], which takes [NaN] and the infinities to 0 and
    cuts a fraction off towards zero. *)
Definition ToUint32 (x : number) : Z :=
  match x with
  | Fin q => (if 0 <=? Qnum q then Qfloor q else Qceiling q) mod 2 ^ 32
  | _ => 0
  end.

Definition toBinary (num : jsstring) (bits : nat) : jsstring :=
  let intVal := round_number (scale (parseFloat num) 100000) in
  let binStr := toString2 (ToUint32 intVal) in
  padStart bits "0" binStr.

(** The loop of [splitIntoChunks]; [fuel] bounds the number of turns. *)
Fixpoint split_loop (fuel : nat) (binStr : jsstring) (i : nat)
    (chunkList : list jsstring) : list jsstring :=
  match fuel with
  | O => chunkList
  | S fuel' =>
      if (i <? length binStr)%nat then
        split_loop fuel' binStr (i + 2) (chunkList ++ [slice i (i + 2) binStr])
      else chunkList
  end.

Definition splitIntoChunks (binStr : jsstring) : list jsstring :=
  split_loop (length binStr) binStr 0 [].

(** The chunk list [handleSend] puts on the page. *)
Definition chunkList (latitude longitude restrictedStatus : jsstring) : list jsstring :=
  let latBin := toBinary latitude 32 in
  let lonBin := toBinary longitude 32 in
  let combinedBin :=
    latBin ++ lonBin
      ++ (if bool_decide (restrictedStatus = str "1") then str "1" else str "0") in
  splitIntoChunks combinedBin.

End IbmCloud.

(** ** Restricted airspace: [restrictedAreas], [pointInPolygon],
    [isRestricted] (LandingPage.jsx, lines 157-198) *)
Module Airspace.
Import JS.

(** A vertex or a point is the array [[lat, lon]]. *)
Definition restrictedAreas : list (list (Q * Q)) :=
  [ [ ((339 # 10), (735 # 10)); ((345 # 10), (738 # 10)); ((3505 # 100), (745 # 10));
      ((348 # 10), (752 # 10)); ((344 # 10), (753 # 10)); ((338 # 10), (749 # 10));
      ((335 # 10), (743 # 10)) ];
    [ ((355 # 10), (781 # 10)); ((361 # 10), (785 # 10)); ((365 # 10), (790 # 10));
      ((362 # 10), (795 # 10)); ((358 # 10), (792 # 10)); ((356 # 10), (788 # 10)) ] ]%Q.

(** [a / b] on rationals, with the infinities and [NaN] of a zero divisor. *)
Definition quotient (a b : Q) : number :=
  if Qeq_bool b 0 then
    if Qeq_bool a 0 then NaN else if Qle_bool 0 a then PosInf else NegInf
  else Fin (a / b)%Q.

(** [x < q + xi] for a quotient [q]. *)
Definition below (x : Q) (q : number) (xi : Q) : bool :=
  match q with
  | Fin v => negb (Qle_bool (v + xi) x)
  | PosInf => true
  | NegInf | NaN => false
  end.

(** [a > b] *)
Definition gt (a b : Q) : bool := negb (Qle_bool a b).

(** The test [intersect] of one turn, for vertex [vs[i]] and the vertex
    before it, [vs[j]]. *)
Definition intersect (x y : Q) (vi vj : Q * Q) : bool :=
  let yi := fst vi in
  let xi := snd vi in
  let yj := fst vj in
  let xj := snd vj in
  negb (eqb (gt yi y) (gt yj y))
  && below x (quotient ((xj - xi) * (y - yi)) (yj - yi + (1 # 1000000))) xi.

(** The loop [for (i = 0, j = vs.length - 1; i < vs.length; j = i++)], with
    the vertices still to visit and the vertex [vs[j]]. *)
Fixpoint crossing_loop (x y : Q) (rest : list (Q * Q)) (vj : Q * Q) (inside : bool) : bool :=
  match rest with
  | [] => inside
  | vi :: rest' =>
      crossing_loop x y rest' vi (if intersect x y vi vj then negb inside else inside)
  end.

Definition pointInPolygon (point : Q * Q) (vs : list (Q * Q)) : bool :=
  let x := snd point in
  let y := fst point in
  match last vs with
  | None => false
  | Some vj => crossing_loop x y vs vj false
  end.

Definition isRestricted (point : Q * Q) : bool :=
  existsb (fun area => pointInPolygon point area) restrictedAreas.

End Airspace.

(** ** The comparison pages: the guard of [fetchComparison] in
    Comparison.jsx and the chunks [fetchData] sends in ComparisionNew.jsx
    (lines 31-33) *)
Module Compare.
Import JS.

(** [location.state?.encryptedBinary || localStorage.getItem("encryptedBinary")],
    of both pages: [state] is the string of the navigation state and
    [stored] the stored item, [None] where there is none. *)
Definition encryptedBinary (state stored : option jsstring) : option jsstring :=
  match state with
  | Some (c :: s) => Some (c :: s)
  | _ => stored
  end.

(** [/^[01]+$/.test(s)] *)
Definition all_bits (s : jsstring) : bool :=
  match s with
  | [] => false
  | _ => forallb (fun c => bool_decide (c = "0"%char \/ c = "1"%char)) s
  end.

(** The guard of [fetchComparison]: [None] is a cipher text that is not
    there; the result is the error set before any request, if any. *)
Definition rejected (encryptedBinary : option jsstring) : option jsstring :=
  match encryptedBinary with
  | Some (c :: s) =>
      if all_bits (c :: s) then None
      else Some (str "Invalid encrypted binary received for comparison")
  | _ => Some (str "Invalid encrypted binary received for comparison")
  end.

(** A character [.] does not match: a line terminator. *)
Definition is_line_terminator (c : ascii) : bool := (code c =? 10) || (code c =? 13).

(** [s.match(/.{1,2}/g)]: from left to right, two characters that are not
    line terminators where there are two, else one; a line terminator is
    passed over. *)
Fixpoint match_pairs (s : jsstring) : list jsstring :=
  match s with
  | [] => []
  | a :: r =>
      if is_line_terminator a then match_pairs r
      else
        match r with
        | [] => [[a]]
        | b :: r' =>
            if is_line_terminator b then [a] :: match_pairs r'
            else [a; b] :: match_pairs r'
        end
  end.

(** [encryptedBinary?.match(/.{1,2}/g)?.slice(0, 33) || []] *)
Definition bits (encryptedBinary : option jsstring) : list jsstring :=
  match encryptedBinary with
  | Some s => take 33 (match_pairs s)
  | None => []
  end.

End Compare.

(** ** What the pages hand to one another: the stored items and the
    navigation state (FullSimulation.jsx, lines 27-37, 68-104 and 657-670;
    LandingPage.jsx, lines 265-311 and 600-610) *)
Module Handover.
Import JS Airspace IbmCloud.

(** [localStorage]: string items under string keys. *)
Definition Storage : Type := gmap jsstring jsstring.

Definition getItem (store : Storage) (key : jsstring) : option jsstring := store !! key.

Definition setItem (key value : jsstring) (store : Storage) : Storage :=
  <[key := value]> store.

(** *** The QKD page *)

(** The fields of the response that are handed on; a field the response
    does not have is [None]. *)
Record QkdResults : Type := mkQkd {
  qkd_key : option jsstring;
  secure : option bool
}.

(** The string [setItem] stores for a value. *)
Definition string_of_key (v : option jsstring) : jsstring :=
  match v with
  | Some s => s
  | None => str "undefined"
  end.

Definition string_of_bool (v : option bool) : jsstring :=
  match v with
  | Some true => str "true"
  | Some false => str "false"
  | None => str "undefined"
  end.

(** The state of the navigation to [/aircraft-navigation]. *)
Record Proceed : Type := mkProceed {
  qkdKey : option jsstring;
  qkdSecure : option bool;
  sdcEve : bool
}.

(** [handleProceedToSuperdense]: the storage afterwards, and the navigation
    if there is one. *)
Definition handleProceedToSuperdense (results : option QkdResults) (simulateEve : bool)
    (store : Storage) : Storage * option Proceed :=
  match results with
  | Some r =>
      let store1 := setItem (str "qkdKey") (string_of_key (qkd_key r)) store in
      let store2 := setItem (str "qkdSecure") (string_of_bool (secure r)) store1 in
      (store2, Some (mkProceed (qkd_key r) (secure r) simulateEve))
  | None => (store, None)
  end.

(** *** The aircraft page *)

(** A point of a path of the response, with the numbers [lat] and [lon]. *)
Record PathPoint : Type := mkPoint {
  lat : Q;
  lon : Q
}.

(** [{...p, restricted: ...}] *)
Record Marked : Type := mkMarked {
  point : PathPoint;
  restricted : jsstring
}.

Definition mark (p : PathPoint) : Marked :=
  mkMarked p (if isRestricted (lat p, lon p) then str "Yes" else str "No").

(** [x.toFixed(5)], as the sign the string starts with and the integer its
    digits spell: the nearest multiple of [1e-5] to the magnitude, the
    larger one of two.  (A magnitude from [1e21] on, printed with an
    exponent, is outside the model.) *)
Definition toFixed5 (x : Q) : bool * Z :=
  (negb (Qle_bool 0 x), Qfloor (Qabs x * 100000 + (1 # 2))%Q).

Definition same_toFixed5 (a b : Q) : bool := bool_decide (toFixed5 a = toFixed5 b).

(** [last_predicted] of [fetchTrajectory], from the predicted path and the
    position of the flight. *)
Definition last_predicted (predicted_path : list PathPoint) (latitude longitude : Q)
    : option Marked :=
  let predicted := map mark predicted_path in
  match last predicted with
  | Some lastPredicted =>
      if same_toFixed5 (lat (point lastPredicted)) latitude
         && same_toFixed5 (lon (point lastPredicted)) longitude
      then None
      else Some lastPredicted
  | None => None
  end.

(** [location.state.predicted] as the simulation page tells the cases
    apart: an array, an object, or nothing. *)
Inductive Predicted : Type :=
  | PredictedArray (ps : list Marked)
  | PredictedObject (p : Marked)
  | NoPredicted.

(** The state of the navigation to [/full-simulation]; the button is
    there only with a [last_predicted]. *)
Definition full_simulation_state (last_predicted : option Marked) : option Predicted :=
  match last_predicted with
  | Some p => Some (PredictedObject p)
  | None => None
  end.

(** *** The simulation page *)

(** [loadQKDKey] *)
Definition loadQKDKey (store : Storage) : option jsstring :=
  match getItem store (str "qkdKey") with
  | Some (c :: s) => Some (c :: s)
  | _ => None
  end.

(** The effect on mount: the CHSH value, the Bell flag and the error it
    sets; [None] is a state left at its initial [null]. *)
Record Mounted : Type := mkMounted {
  mounted_chshValue : option number;
  mounted_bellViolated : option bool;
  mounted_error : option jsstring
}.

Definition mount (store : Storage) : Mounted :=
  let key := loadQKDKey store in
  {| mounted_chshValue :=
       match getItem store (str "chshS") with
       | Some (c :: s) => Some (parseFloat (c :: s))
       | _ => None
       end;
     mounted_bellViolated :=
       match getItem store (str "bellViolated") with
       | Some (c :: s) => Some (bool_decide (c :: s = str "true"))
       | _ => None
       end;
     mounted_error :=
       match key with
       | Some _ => None
       | None => Some (str "No QKD key found. Please generate a key first.")
       end |}.

(** The effect on [location.state]: the predicted latitude, longitude and
    flag it sets; [state] is [None] without a navigation state. *)
Definition load_predicted (state : option Predicted) : option Marked :=
  match state with
  | Some (PredictedArray (p :: _)) => Some p
  | Some (PredictedObject p) => Some p
  | _ => None
  end.

(** What [handleRunFullSimulation] reads after the two effects, with the
    storage as it was on mount. *)
Definition inputs (store : Storage) (state : option Predicted) : Page.Inputs :=
  let predicted := load_predicted state in
  {| Page.storedQkdKey := getItem store (str "qkdKey");
     Page.predictedLat := option_map (fun p => lat (point p)) predicted;
     Page.predictedLon := option_map (fun p => lon (point p)) predicted;
     Page.predictedRestricted := option_map restricted predicted;
     Page.chshValue := mounted_chshValue (mount store);
     Page.bellViolated := mounted_bellViolated (mount store) |}.

End Handover.

(** ** More vocabulary of the properties *)
Module Terms.
Import JS Props.

#[global] Instance Status_eq_dec : EqDecision Transmit.Status.
Proof. solve_decision. Defined.

(** A page that holds a key, a predicted point in restricted airspace and a
    CHSH value, and the same page without the key. *)
Definition ready_inputs : Page.Inputs :=
  {| Page.storedQkdKey := Some (str "101");
     Page.predictedLat := Some (12345 # 1000)%Q;
     Page.predictedLon := Some (- (7765432 # 100000))%Q;
     Page.predictedRestricted := Some (yes_no true);
     Page.chshValue := Some (Fin (27 # 10));
     Page.bellViolated := Some true |}.

(** The deliveries that end a stream. *)
Definition is_terminal {Result : Type} (e : Receiver.Signal Result) : Prop :=
  match e with
  | Receiver.onmessage (Receiver.done _)
  | Receiver.onmessage (Receiver.error_event _)
  | Receiver.onerror => True
  | _ => False
  end.

(** The job ids of the progress events delivered before the stream ends. *)
Fixpoint reported {Result : Type} (events : list (Receiver.Signal Result)) : list jsstring :=
  match events with
  | [] => []
  | Receiver.onmessage (Receiver.progress_event id _ _ _ _) :: rest => id :: reported rest
  | Receiver.onmessage (Receiver.done _) :: _
  | Receiver.onmessage (Receiver.error_event _) :: _
  | Receiver.onerror :: _ => []
  | _ :: rest => reported rest
  end.

(** What is to hold of every state the consumer reaches: it is loading
    exactly while the stream is open; an open stream has neither result nor
    error; a result excludes an error and comes with full progress. *)
Definition lifecycle {Result : Type} (s : Receiver.State Result) : Prop :=
  Receiver.loading s = Receiver.connected s /\
  (Receiver.connected s = true ->
     Receiver.decodedResult s = None /\ Receiver.error s = None) /\
  (Receiver.decodedResult s <> None ->
     Receiver.error s = None /\ Receiver.progress s = Fin 100) /\
  (Receiver.error s <> None -> Receiver.decodedResult s = None).

(** Splitting two characters at a time without padding, by recursion on
    the string. *)
Fixpoint pieces_of (s : jsstring) : list jsstring :=
  match s with
  | [] => []
  | [a] => [[a]]
  | a :: b :: r => [a; b] :: pieces_of r
  end.

Definition keyless_inputs : Page.Inputs :=
  {| Page.storedQkdKey := None;
     Page.predictedLat := Some (12345 # 1000)%Q;
     Page.predictedLon := Some (- (7765432 # 100000))%Q;
     Page.predictedRestricted := Some (yes_no true);
     Page.chshValue := None;
     Page.bellViolated := None |}.

End Terms.

(* ================================================================== *)
(** * Part II: properties                                              *)
(* ================================================================== *)

Import JS Codec OTP Transmit Reconstruct Props.

(** ** Facts about the primitives *)

Lemma parseInt_char_range (o : option ascii) :
  parseInt_char o = None \/
  exists d, parseInt_char o = Some d /\ (d = 0 \/ d = 1 \/ d = 2 \/ d = 3 \/ d = 4 \/
                                       d = 5 \/ d = 6 \/ d = 7 \/ d = 8 \/ d = 9).
Proof.
  destruct o as [c|]; [|left; reflexivity].
  destruct c as [[] [] [] [] [] [] [] []]; vm_compute;
    first [ left; reflexivity | right; eexists; split; [reflexivity | intuition congruence] ].
Qed.

(** On a data bit one pad step writes one character, and a second step with
    the same key character writes the bit back. *)
Lemma pad_step_bit (c : ascii) (o : option ascii) :
  is_bit c ->
  toString (xor (parseInt_char (Some c)) (parseInt_char o)) = [pad_char c o] /\
  toString (xor (parseInt_char (Some (pad_char c o))) (parseInt_char o)) = [c].
Proof.
  intros Hc. unfold pad_char.
  destruct (parseInt_char_range o) as [Hk | (d & Hk & Hd)]; rewrite Hk; clear Hk.
  - destruct Hc as [-> | ->]; vm_compute; split; reflexivity.
  - destruct Hc as [-> | ->];
      repeat (destruct Hd as [-> | Hd]; [vm_compute; split; reflexivity|]);
      subst d; vm_compute; split; reflexivity.
Qed.

Lemma is_bit_zero : is_bit "0".
Proof. left; reflexivity. Qed.

Lemma pad_from_bits (key : jsstring) (off i : Z) (c : ascii) (rest : jsstring) :
  is_bit c ->
  pad_from key off i (c :: rest)
  = pad_char c (char_at key (Z.rem (off + i) (Z.of_nat (length key))))
      :: pad_from key off (i + 1) rest.
Proof.
  intros Hc. cbn [pad_from].
  destruct (pad_step_bit c (char_at key (Z.rem (off + i) (Z.of_nat (length key)))) Hc)
    as [-> _].
  reflexivity.
Qed.

Lemma pad_from_length (key : jsstring) (off : Z) (cs : jsstring) :
  bitstring cs -> forall i, length (pad_from key off i cs) = length cs.
Proof.
  induction 1 as [|c cs Hc _ IH]; intros i; [reflexivity|].
  rewrite pad_from_bits by assumption. cbn. now rewrite IH.
Qed.

Lemma pad_from_involutive (key : jsstring) (off : Z) (cs : jsstring) :
  bitstring cs -> forall i, pad_from key off i (pad_from key off i cs) = cs.
Proof.
  induction 1 as [|c cs Hc _ IH]; intros i; [reflexivity|].
  rewrite pad_from_bits by assumption.
  cbn [pad_from].
  destruct (pad_step_bit c (char_at key (Z.rem (off + i) (Z.of_nat (length key)))) Hc)
    as [_ ->].
  cbn. now rewrite IH.
Qed.

Lemma encrypt_unfold (chunk key : jsstring) (off : Z) :
  key <> [] -> oneTimePadEncrypt chunk key off = pad_from key off 0 chunk.
Proof. destruct key, chunk; intros; cbn; congruence. Qed.

Lemma decrypt_unfold (chunk key : jsstring) (off : Z) :
  key <> [] -> oneTimePadDecrypt chunk key off = pad_from key off 0 chunk.
Proof. destruct key, chunk; intros; cbn; congruence. Qed.

(** ** OneTimePad *)

(** C2. On a string of bits, decrypting the encryption with the same key and
    the same offset gives the data back, whatever the key and the offset;
    and with an empty key or empty data both operations return their input
    unchanged. *)
Theorem otp_involution (data key : jsstring) (o : Z) :
  bitstring data ->
  oneTimePadDecrypt (oneTimePadEncrypt data key o) key o = data /\
  (key = [] \/ data = [] ->
     oneTimePadEncrypt data key o = data /\ oneTimePadDecrypt data key o = data).
Proof.
  intros Hbits. split.
  - destruct key as [|k key]; [destruct data; reflexivity|].
    rewrite encrypt_unfold, decrypt_unfold by discriminate.
    now apply pad_from_involutive.
  - intros [-> | ->]; [destruct data | destruct key]; split; reflexivity.
Qed.

Lemma otp_involution_witness :
  bitstring (str "0110") /\
  (oneTimePadDecrypt (oneTimePadEncrypt (str "0110") (str "101") 1) (str "101") 1
     = str "0110" /\
   (str "101" = [] \/ str "0110" = [] ->
      oneTimePadEncrypt (str "0110") (str "101") 1 = str "0110" /\
      oneTimePadDecrypt (str "0110") (str "101") 1 = str "0110")).
Proof.
  assert (H : bitstring (str "0110")).
  { repeat constructor; (left; reflexivity) || (right; reflexivity). }
  split; [exact H | exact (otp_involution (str "0110") (str "101") 1 H)].
Defined.

Example otp_example :
  oneTimePadEncrypt (str "0110") (str "101") 1 = str "0000" /\
  oneTimePadEncrypt (str "01") (str "7") 0 = str "76".
Proof. split; vm_compute; reflexivity. Qed.

(** The hypothesis on the data is needed: on other digits one step can
    write two characters, and the second pass does not undo it. *)
Example otp_digits_example :
  oneTimePadEncrypt (str "7") (str "9") 0 = str "14" /\
  oneTimePadDecrypt (str "14") (str "9") 0 = str "813".
Proof. split; vm_compute; reflexivity. Qed.

(** ** Chunk splitting *)

Lemma list_pair_ind {A} (P : list A -> Prop) :
  P [] -> (forall a, P [a]) -> (forall a b r, P r -> P (a :: b :: r)) ->
  forall l, P l.
Proof.
  intros H0 H1 H2.
  fix IH 1. intros [|a [|b r]]; [exact H0 | apply H1 | apply H2, IH].
Qed.

Lemma chunks_of_step (s : jsstring) :
  s <> [] -> chunks_of s = padEnd 2 "0" (take 2 s) :: chunks_of (drop 2 s).
Proof. destruct s as [|a [|b r]]; [congruence | reflexivity | reflexivity]. Qed.

(** With enough fuel the loop is the recursive splitting of the rest of the
    string. *)
Lemma chunk_loop_chunks_of (d : jsstring) (fuel : nat) :
  forall i acc, (length d <= i + 2 * fuel)%nat ->
  chunk_loop fuel d i acc = acc ++ chunks_of (drop i d).
Proof.
  induction fuel as [|fuel IH]; intros i acc Hlen; cbn [chunk_loop].
  - rewrite drop_ge by lia. now rewrite app_nil_r.
  - destruct (Nat.ltb_spec i (length d)) as [Hlt | Hge].
    + rewrite IH by lia. rewrite <- app_assoc. f_equal. cbn [app].
      rewrite (chunks_of_step (drop i d)).
      * unfold slice. replace (i + 2 - i)%nat with 2%nat by lia.
        now rewrite drop_drop.
      * intros Hnil. apply (f_equal length) in Hnil.
        rewrite length_drop in Hnil. cbn in Hnil. lia.
    + rewrite drop_ge by lia. now rewrite app_nil_r.
Qed.

Lemma split_chunks_chunks_of (d : jsstring) : split_chunks d = chunks_of d.
Proof.
  unfold split_chunks. rewrite chunk_loop_chunks_of by lia. reflexivity.
Qed.

(** The loop leaves by its own test: more fuel changes nothing. *)
Lemma chunk_loop_fuel (d : jsstring) (fuel : nat) :
  (length d <= fuel)%nat -> chunk_loop fuel d 0 [] = split_chunks d.
Proof.
  intros H. rewrite split_chunks_chunks_of, chunk_loop_chunks_of by lia. reflexivity.
Qed.

Lemma chunks_of_lengths (d : jsstring) :
  Forall (fun ch => length ch = 2%nat) (chunks_of d).
Proof.
  induction d as [| a | a b r IH] using list_pair_ind; cbn;
    repeat constructor; assumption.
Qed.

Lemma chunks_of_count (d : jsstring) :
  length (chunks_of d) = ((length d + 1) / 2)%nat.
Proof.
  induction d as [| a | a b r IH] using list_pair_ind; [reflexivity..|].
  cbn [chunks_of length]. rewrite IH.
  replace (S (S (length r)) + 1)%nat with (length r + 1 + 1 * 2)%nat by lia.
  rewrite Nat.div_add by lia. lia.
Qed.

Lemma chunks_of_concat (d : jsstring) :
  concat (chunks_of d) = d ++ replicate (length d mod 2)%nat "0"%char.
Proof.
  induction d as [| a | a b r IH] using list_pair_ind; [reflexivity..|].
  cbn [chunks_of concat length app]. rewrite IH.
  replace (S (S (length r))) with (length r + 1 * 2)%nat by lia.
  now rewrite Nat.Div0.mod_add.
Qed.

Lemma chunks_of_lookup (d : jsstring) :
  forall i, (2 * i + 2 <= length d)%nat ->
  chunks_of d !! i = Some (slice (2 * i) (2 * i + 2) d).
Proof.
  induction d as [| a | a b r IH] using list_pair_ind; intros i Hi;
    [cbn in Hi; lia .. |].
  destruct i as [|i]; [reflexivity|].
  cbn [chunks_of lookup list_lookup]. cbn [length] in Hi.
  rewrite IH by lia. f_equal. unfold slice.
  replace (2 * S i)%nat with (S (S (2 * i))) by lia.
  replace (S (S (2 * i)) + 2 - S (S (2 * i)))%nat with (2 * i + 2 - 2 * i)%nat by lia.
  reflexivity.
Qed.

(** C7. Every chunk has two characters, there are [ceil(len/2)] of them, a
    chunk that lies wholly inside the string is the slice itself, the
    concatenation of the chunks is the string followed by one [0] exactly
    when its length is odd, and cutting the concatenation back to the
    original length gives the string back. *)
Theorem split_chunks_coverage (binaryData : jsstring) :
  Forall (fun ch => length ch = 2%nat) (split_chunks binaryData) /\
  length (split_chunks binaryData) = ((length binaryData + 1) / 2)%nat /\
  (forall i, (2 * i + 2 <= length binaryData)%nat ->
     split_chunks binaryData !! i = Some (slice (2 * i) (2 * i + 2) binaryData)) /\
  concat (split_chunks binaryData)
    = binaryData ++ replicate (length binaryData mod 2)%nat "0"%char /\
  take (length binaryData) (concat (split_chunks binaryData)) = binaryData.
Proof.
  rewrite split_chunks_chunks_of.
  split; [apply chunks_of_lengths|].
  split; [apply chunks_of_count|].
  split; [apply chunks_of_lookup|].
  split; [apply chunks_of_concat|].
  rewrite chunks_of_concat. now rewrite take_app_length.
Qed.

Example split_chunks_example :
  split_chunks (str "10110") = [str "10"; str "11"; str "00"] /\
  split_chunks (str "1011") = [str "10"; str "11"] /\
  split_chunks [] = [].
Proof. repeat split; reflexivity. Qed.

(** ** Chunk-wise encryption against whole-message encryption *)

Lemma key_index_shift (len m j : Z) :
  0 < len -> 0 <= m -> 0 <= j ->
  Z.rem (Z.rem m len + j) len = Z.rem (0 + (m + j)) len.
Proof.
  intros Hlen Hm Hj.
  rewrite (Z.rem_mod_nonneg m len) by lia.
  pose proof (Z.mod_pos_bound m len Hlen).
  rewrite !Z.rem_mod_nonneg by lia.
  rewrite Z.add_0_l. apply Zplus_mod_idemp_l.
Qed.

(** A two-bit chunk encrypted at the offset of chunk [n] is the piece of the
    whole-message pad that starts at position [2n]. *)
Lemma encrypt_chunk_at (key : jsstring) (n : nat) (a b : ascii) (r : jsstring) :
  key <> [] -> is_bit a -> is_bit b ->
  oneTimePadEncrypt [a; b] key (key_offset n key) ++ pad_from key 0 (Z.of_nat (S n) * 2) r
  = pad_from key 0 (Z.of_nat n * 2) (a :: b :: r).
Proof.
  intros Hkey Ha Hb.
  assert (Hlen : 0 < Z.of_nat (length key)) by (destruct key; [congruence | cbn; lia]).
  rewrite encrypt_unfold by assumption.
  rewrite !pad_from_bits by assumption. cbn [pad_from app].
  unfold key_offset.
  rewrite (key_index_shift _ _ 0), (key_index_shift _ _ (0 + 1)) by lia.
  rewrite Z.add_0_r.
  replace (Z.of_nat n * 2 + (0 + 1)) with (Z.of_nat n * 2 + 1) by lia.
  replace (Z.of_nat n * 2 + 1 + 1) with (Z.of_nat (S n) * 2) by lia.
  reflexivity.
Qed.

Lemma encrypt_chunks_from (key : jsstring) (d : jsstring) :
  key <> [] -> bitstring d ->
  forall n,
  take (length d)
    (concat (imap (fun idx ch => oneTimePadEncrypt ch key (key_offset (n + idx) key))
               (chunks_of d)))
  = pad_from key 0 (Z.of_nat n * 2) d.
Proof.
  intros Hkey.
  induction d as [| a | a b r IH] using list_pair_ind; intros Hbits n.
  - reflexivity.
  - apply Forall_cons in Hbits as [Ha _].
    cbn [chunks_of imap concat length]. rewrite Nat.add_0_r, app_nil_r.
    pose proof (encrypt_chunk_at key n a "0" [] Hkey Ha is_bit_zero) as E.
    rewrite !pad_from_bits in E by (assumption || apply is_bit_zero).
    cbn [pad_from] in E. rewrite app_nil_r in E. rewrite E.
    rewrite pad_from_bits by assumption.
    reflexivity.
  - apply Forall_cons in Hbits as [Ha Hbits].
    apply Forall_cons in Hbits as [Hb Hbits].
    cbn [chunks_of imap concat length]. rewrite Nat.add_0_r.
    rewrite (imap_ext _
      (fun idx ch => oneTimePadEncrypt ch key (key_offset (S n + idx) key)))
      by (intros i x _; cbn; now rewrite Nat.add_succ_r).
    rewrite <- (encrypt_chunk_at key n a b r Hkey Ha Hb).
    rewrite <- (IH Hbits (S n)).
    assert (Hl : length (oneTimePadEncrypt [a; b] key (key_offset n key)) = 2%nat).
    { rewrite encrypt_unfold by assumption.
      apply (pad_from_length key _ [a; b]).
      apply Forall_cons_2; [assumption|]. apply Forall_cons_2; [assumption|]. constructor. }
    destruct (oneTimePadEncrypt [a; b] key (key_offset n key)) as [|x [|y [|z t]]];
      cbn in Hl; try lia.
    reflexivity.
Qed.

(** C10. For a string of bits and a non-empty key, the chunks encrypted one
    by one at the offsets [(2 * idx) % key.length], joined and cut to the
    length of the data, are the whole string encrypted at offset [0]. *)
Theorem chunk_encrypt_is_whole_encrypt (d qkdKey : jsstring) :
  bitstring d -> qkdKey <> [] ->
  take (length d) (concat (encrypt_chunks (split_chunks d) qkdKey))
  = oneTimePadEncrypt d qkdKey 0.
Proof.
  intros Hbits Hkey.
  rewrite split_chunks_chunks_of, encrypt_unfold by assumption.
  exact (encrypt_chunks_from qkdKey d Hkey Hbits 0%nat).
Qed.

Lemma chunk_encrypt_is_whole_encrypt_witness :
  bitstring (str "10110") /\ str "110" <> [] /\
  take (length (str "10110")) (concat (encrypt_chunks (split_chunks (str "10110")) (str "110")))
  = oneTimePadEncrypt (str "10110") (str "110") 0.
Proof.
  assert (Hb : bitstring (str "10110")).
  { repeat constructor; (left; reflexivity) || (right; reflexivity). }
  assert (Hk : str "110" <> []) by discriminate.
  exact (conj Hb (conj Hk (chunk_encrypt_is_whole_encrypt _ _ Hb Hk))).
Defined.

Example chunk_encrypt_example :
  encrypt_chunks (split_chunks (str "10110")) (str "110") = [str "01"; str "10"; str "10"] /\
  oneTimePadEncrypt (str "10110") (str "110") 0 = str "01101".
Proof. split; vm_compute; reflexivity. Qed.

(** ** Binary numerals *)

Lemma pos_bits_bitstring (p : positive) : bitstring (pos_bits p).
Proof.
  assert (H1 : bitstring ["1"%char]) by (apply Forall_cons_2; [right; reflexivity | constructor]).
  assert (H0 : bitstring ["0"%char]) by (apply Forall_cons_2; [left; reflexivity | constructor]).
  induction p; cbn [pos_bits]; try apply Forall_app_2; assumption.
Qed.

Lemma pos_bits_short (p : positive) :
  forall n : nat, Zpos p < 2 ^ Z.of_nat n -> (length (pos_bits p) <= n)%nat.
Proof.
  induction p as [q IH | q IH |]; intros [|n] H;
    try (cbn in H; lia); cbn [pos_bits]; rewrite ?length_app; cbn [length];
    try (rewrite Nat2Z.inj_succ, Z.pow_succ_r in H by lia;
         specialize (IH n ltac:(lia)); lia).
  lia.
Qed.


Lemma parse_digits_bits (s : jsstring) :
  bitstring s -> forall acc,
  parse_digits 2 (Some acc) s = Some (foldl (fun a c => 2 * a + bit_val c) acc s).
Proof.
  induction 1 as [|c s Hc _ IH]; intros acc; [reflexivity|].
  destruct Hc as [-> | ->]; cbn [parse_digits foldl]; cbn; apply IH.
Qed.

Lemma parseInt_bits (s : jsstring) :
  bitstring s -> s <> [] -> parseInt s 2 = Some (bin_value s).
Proof.
  intros Hs Hne. destruct s as [|c s]; [congruence|].
  apply Forall_cons in Hs as [Hc Hs]. unfold bin_value.
  destruct Hc as [-> | ->]; cbn; apply (parse_digits_bits s Hs).
Qed.

Lemma bin_value_zeros (k : nat) (s : jsstring) :
  bin_value (replicate k "0"%char ++ s) = bin_value s.
Proof.
  unfold bin_value. rewrite foldl_app.
  replace (foldl (fun acc c => 2 * acc + bit_val c) 0 (replicate k "0"%char)) with 0;
    [reflexivity|].
  induction k as [|k IH]; [reflexivity | exact IH].
Qed.

Lemma bin_value_pos_bits (p : positive) : bin_value (pos_bits p) = Zpos p.
Proof.
  unfold bin_value.
  assert (E0 : bit_val "0" = 0) by reflexivity.
  assert (E1 : bit_val "1" = 1) by reflexivity.
  induction p as [q IH | q IH |]; cbn [pos_bits]; rewrite ?foldl_app; cbn [foldl];
    rewrite ?IH, ?E0, ?E1; lia.
Qed.

Lemma bin_value_toString2 (z : Z) : 0 <= z -> bin_value (toString2 z) = z.
Proof.
  destruct z as [|p|p]; intros H; [reflexivity | apply bin_value_pos_bits | lia].
Qed.

Lemma toString2_bitstring (z : Z) : 0 <= z -> bitstring (toString2 z).
Proof.
  destruct z as [|p|p]; intros H; [|apply pos_bits_bitstring | lia].
  apply Forall_cons_2; [left; reflexivity | constructor].
Qed.

Lemma toString2_short (z : Z) (n : nat) :
  0 <= z < 2 ^ Z.of_nat n -> (0 < n)%nat -> (length (toString2 z) <= n)%nat.
Proof.
  destruct z as [|p|p]; intros [H0 H1] Hn; [cbn; lia | now apply pos_bits_short | lia].
Qed.

Lemma padStart_bitstring (n : nat) (s : jsstring) :
  bitstring s -> bitstring (padStart n "0" s).
Proof.
  intros Hs. apply Forall_app_2; [|assumption].
  apply Forall_replicate. left; reflexivity.
Qed.

Lemma padStart_length (n : nat) (c : ascii) (s : jsstring) :
  (length s <= n)%nat -> length (padStart n c s) = n.
Proof. intros H. unfold padStart. rewrite length_app, length_replicate. lia. Qed.

(** ** BinaryCodec *)

Lemma round_bounds (x : Q) :
  (inject_Z (round x) <= x + (1 # 2) /\ x + (1 # 2) < inject_Z (round x) + 1)%Q.
Proof.
  unfold round. split; [apply Qfloor_le|].
  rewrite <- (inject_Z_plus _ 1). apply Qlt_floor.
Qed.

Lemma round_nonneg (x : Q) : (0 <= x)%Q -> 0 <= round x.
Proof.
  intros Hx. unfold round. change (Qfloor 0%Q <= Qfloor (x + (1 # 2))).
  apply Qfloor_resp_le. lra.
Qed.

Lemma round_below (x : Q) (n : Z) : (x < inject_Z n)%Q -> round x <= n.
Proof.
  intros Hx. destruct (round_bounds x) as [Hlo _].
  assert (H : (inject_Z (round x) < inject_Z (n + 1))%Q).
  { rewrite inject_Z_plus. change (inject_Z 1) with 1%Q. lra. }
  rewrite <- Zlt_Qlt in H. lia.
Qed.

(** A coordinate in range is written as exactly thirty-two bits that read
    back as the scaled integer. *)
Lemma floatToBinary_in_range (value : Q) :
  (-180 <= value < 180)%Q ->
  let intVal := round ((value + 180) * 100000)%Q in
  bitstring (floatToBinary value 32) /\
  length (floatToBinary value 32) = 32%nat /\
  parseInt (floatToBinary value 32) 2 = Some intVal.
Proof.
  intros [Hlo Hhi] intVal.
  assert (H0 : 0 <= intVal) by (apply round_nonneg; lra).
  assert (H1 : intVal <= 36000000).
  { apply round_below. change (inject_Z 36000000) with 36000000%Q. lra. }
  assert (Hbits : bitstring (floatToBinary value 32)).
  { apply padStart_bitstring, toString2_bitstring, H0. }
  assert (Hlen : length (floatToBinary value 32) = 32%nat).
  { apply padStart_length, toString2_short; [|lia].
    split; [exact H0|]. change (2 ^ Z.of_nat 32) with 4294967296. lia. }
  split; [exact Hbits|]. split; [exact Hlen|].
  rewrite parseInt_bits; [|exact Hbits|].
  - unfold floatToBinary, padStart. now rewrite bin_value_zeros, bin_value_toString2.
  - intros E. rewrite E in Hlen. discriminate.
Qed.

Lemma binaryToFloat_near (value : Q) :
  (-180 <= value < 180)%Q ->
  exists value', binaryToFloat (floatToBinary value 32) = Some (Fin value') /\
                 (Qabs (value' - value) <= 1 # 100000)%Q.
Proof.
  intros Hv. destruct (floatToBinary_in_range value Hv) as (_ & Hlen & Hparse).
  unfold binaryToFloat. rewrite Hparse.
  destruct (floatToBinary value 32) as [|c s] eqn:E; [discriminate|].
  eexists; split; [reflexivity|].
  destruct (round_bounds ((value + 180) * 100000)) as [Hlo Hhi].
  set (z := inject_Z (round ((value + 180) * 100000))) in *.
  assert (Ediv : (z / 100000 == z * (1 # 100000))%Q) by reflexivity.
  apply Qabs_Qle_condition. rewrite Ediv. split; lra.
Qed.

Lemma binaryToLatLon_long (binary : jsstring) :
  (65 <= length binary)%nat ->
  binaryToLatLon binary
  = mkLatLon (binaryToFloat (slice 0 32 binary)) (binaryToFloat (slice 32 64 binary))
      (Some (yes_no (bool_decide (binary !! 64%nat = Some "1"%char)))).
Proof.
  intros Hlen. unfold binaryToLatLon, yes_no.
  destruct (Nat.ltb_spec (length binary) 1); [lia|].
  destruct (Nat.leb_spec 65 (length binary)); [|lia].
  destruct (Nat.ltb_spec (length binary) 65); [lia|].
  reflexivity.
Qed.

Lemma binaryToLatLon_short (binary : jsstring) :
  (length binary < 65)%nat ->
  binaryToLatLon binary
  = mkLatLon None None (match binary with [] => None | _ => Some (str "No") end).
Proof.
  intros Hlen. unfold binaryToLatLon.
  destruct binary as [|c s]; [reflexivity|].
  destruct (Nat.ltb_spec (length (c :: s)) 1); [cbn in *; lia|].
  destruct (Nat.leb_spec 65 (length (c :: s))); [lia|].
  destruct (Nat.ltb_spec (length (c :: s)) 65); [|lia].
  reflexivity.
Qed.

Lemma binaryToFloat_bits (bin : jsstring) :
  bitstring bin -> bin <> [] ->
  binaryToFloat bin = Some (Fin (inject_Z (bin_value bin) / 100000 - 180)%Q).
Proof.
  intros Hb Hne. unfold binaryToFloat. rewrite parseInt_bits by assumption.
  destruct bin; [congruence | reflexivity].
Qed.

(** C8. An input shorter than 65 characters decodes to unknown latitude and
    longitude, and its restricted flag is never read from the input (it is
    [No], or unknown for the empty string); an input of at least 65
    characters decodes characters 0..31 as latitude, 32..63 as longitude and
    character 64 as the flag, and on a string of bits the two coordinates are
    the binary values divided by 1e5, less 180. *)
Theorem binaryToLatLon_by_length (binary : jsstring) :
  ((length binary < 65)%nat ->
     lat (binaryToLatLon binary) = None /\
     lon (binaryToLatLon binary) = None /\
     restricted (binaryToLatLon binary)
       = match binary with [] => None | _ => Some (str "No") end) /\
  ((65 <= length binary)%nat ->
     binaryToLatLon binary
     = mkLatLon (binaryToFloat (slice 0 32 binary)) (binaryToFloat (slice 32 64 binary))
         (Some (yes_no (bool_decide (binary !! 64%nat = Some "1"%char)))) /\
     (bitstring binary ->
        lat (binaryToLatLon binary)
          = Some (Fin (inject_Z (bin_value (slice 0 32 binary)) / 100000 - 180)%Q) /\
        lon (binaryToLatLon binary)
          = Some (Fin (inject_Z (bin_value (slice 32 64 binary)) / 100000 - 180)%Q))).
Proof.
  split; intros Hlen.
  - rewrite binaryToLatLon_short by assumption. repeat split.
  - split; [now apply binaryToLatLon_long|].
    intros Hbits. rewrite binaryToLatLon_long by assumption. cbn [lat lon].
    assert (Hne : forall a, (a + 32 <= length binary)%nat -> slice a (a + 32) binary <> []).
    { intros a Ha E. apply (f_equal length) in E. unfold slice in E.
      rewrite length_take, length_drop in E. cbn in E. lia. }
    split; apply binaryToFloat_bits;
      try (apply Forall_take, Forall_drop, Hbits).
    + apply (Hne 0%nat). lia.
    + apply (Hne 32%nat). lia.
Qed.

Example binaryToLatLon_examples :
  binaryToLatLon (str "1") = mkLatLon None None (Some (str "No")) /\
  binaryToLatLon [] = mkLatLon None None None /\
  binaryToLatLon (replicate 64 "1"%char) = mkLatLon None None (Some (str "No")) /\
  restricted (binaryToLatLon (replicate 65 "1"%char)) = Some (str "Yes").
Proof. repeat split; vm_compute; reflexivity. Qed.

(** C1. A record whose coordinates lie in [-180, 180) is encoded as 65 bits,
    and decoding them gives coordinates within 1e-5 of the originals and the
    same restricted flag.  Numbers are exact rationals here, and the
    coordinates need not lie on the 1e-5 grid. *)
Theorem record_round_trip (latitude longitude : Q) (flag : bool) :
  (-180 <= latitude < 180)%Q -> (-180 <= longitude < 180)%Q ->
  let encoded := combinedBin (Some latitude) (Some longitude) (Some (yes_no flag)) in
  bitstring encoded /\ length encoded = 65%nat /\
  exists lat' lon',
    binaryToLatLon encoded
      = mkLatLon (Some (Fin lat')) (Some (Fin lon')) (Some (yes_no flag)) /\
    (Qabs (lat' - latitude) <= 1 # 100000)%Q /\
    (Qabs (lon' - longitude) <= 1 # 100000)%Q.
Proof.
  intros Hlat Hlon encoded.
  destruct (floatToBinary_in_range latitude Hlat) as (Hb1 & Hl1 & _).
  destruct (floatToBinary_in_range longitude Hlon) as (Hb2 & Hl2 & _).
  destruct (binaryToFloat_near latitude Hlat) as (lat' & Elat & Hlat').
  destruct (binaryToFloat_near longitude Hlon) as (lon' & Elon & Hlon').
  set (r := if flag then "1"%char else "0"%char).
  assert (Eenc : encoded = floatToBinary latitude 32 ++ floatToBinary longitude 32 ++ [r]).
  { subst encoded r. unfold combinedBin. now destruct flag. }
  assert (Hr : is_bit r) by (subst r; destruct flag; [right | left]; reflexivity).
  assert (Hlen : length encoded = 65%nat).
  { rewrite Eenc, !length_app, Hl1, Hl2. reflexivity. }
  split; [|split; [exact Hlen|]].
  - rewrite Eenc. apply Forall_app_2; [exact Hb1|]. apply Forall_app_2; [exact Hb2|].
    apply Forall_cons_2; [exact Hr | constructor].
  - exists lat', lon'. split; [|split; assumption].
    rewrite binaryToLatLon_long by lia.
    assert (E1 : slice 0 32 encoded = floatToBinary latitude 32).
    { unfold slice. rewrite Eenc. cbn [drop Nat.sub]. apply take_app_length'. congruence. }
    assert (E2 : slice 32 64 encoded = floatToBinary longitude 32).
    { unfold slice. rewrite Eenc. rewrite drop_app_length' by congruence.
      apply take_app_length'. cbn [Nat.sub]. congruence. }
    assert (E3 : encoded !! 64%nat = Some r).
    { rewrite Eenc, app_assoc. apply list_lookup_middle.
      rewrite length_app, Hl1, Hl2. reflexivity. }
    rewrite E1, E2, E3, Elat, Elon. subst r. now destruct flag.
Qed.

Lemma record_round_trip_witness :
  (-180 <= 12345 # 1000 < 180)%Q /\ (-180 <= - (7765432 # 100000) < 180)%Q /\
  bitstring (combinedBin (Some (12345 # 1000)%Q) (Some (- (7765432 # 100000))%Q)
               (Some (yes_no true))) /\
  length (combinedBin (Some (12345 # 1000)%Q) (Some (- (7765432 # 100000))%Q)
            (Some (yes_no true))) = 65%nat /\
  exists lat' lon',
    binaryToLatLon (combinedBin (Some (12345 # 1000)%Q) (Some (- (7765432 # 100000))%Q)
                      (Some (yes_no true)))
      = mkLatLon (Some (Fin lat')) (Some (Fin lon')) (Some (yes_no true)) /\
    (Qabs (lat' - (12345 # 1000)) <= 1 # 100000)%Q /\
    (Qabs (lon' - - (7765432 # 100000)) <= 1 # 100000)%Q.
Proof.
  assert (H1 : (-180 <= 12345 # 1000 < 180)%Q) by (split; vm_compute; congruence).
  assert (H2 : (-180 <= - (7765432 # 100000) < 180)%Q) by (split; vm_compute; congruence).
  exact (conj H1 (conj H2
    (record_round_trip (12345 # 1000) (- (7765432 # 100000)) true H1 H2))).
Defined.

Example combinedBin_example :
  combinedBin (Some (12345 # 1000)%Q) (Some (- (7765432 # 100000))%Q) (Some (str "Yes"))
  = str "00000001001001010111111011000100000000001001110000101010110010001".
Proof. vm_compute. reflexivity. Qed.




(** ** ChunkTransmitter: results per chunk *)

Lemma transmission_result_lookup (chunks encryptedChunks : list jsstring)
    (qkdKey : jsstring) (data : ResponseData) (i : nat) (enc : jsstring) :
  encryptedChunks !! i = Some enc ->
  transmissionResults (build_results chunks encryptedChunks qkdKey data) !! i
  = Some (transmission_result chunks qkdKey (default [] (corrected_messages data)) i enc).
Proof.
  intros H. cbn [build_results transmissionResults].
  rewrite list_lookup_imap, H. reflexivity.
Qed.

Lemma status_gate (chunks : list jsstring) (qkdKey : jsstring)
    (correctedMessages : list (option BackendItem)) (i : nat) (enc : jsstring) :
  let r := transmission_result chunks qkdKey correctedMessages i enc in
  (status r = OK <-> (50 <= fidelity r)%Q) /\ (status r = Failed <-> (fidelity r < 50)%Q).
Proof.
  cbn [transmission_result status fidelity].
  destruct (Qle_bool 50 _) eqn:E.
  - apply Qle_bool_iff in E. repeat split; try congruence; intros; try lra.
  - assert (~ (50 <= default 0%Q
                 (item_fidelity match correctedMessages !! i with
                                | Some (Some item) => item
                                | _ => mkItem None None
                                end))%Q) as N.
    { intros H. apply Qle_bool_iff in H. congruence. }
    repeat split; try congruence; intros; lra.
Qed.

(** C4. For every chunk index the result is [OK] exactly when its fidelity
    is at least 50; its received chunk and fidelity are those of the backend
    item at that index, each field defaulting to the encrypted chunk and to 0;
    and when the response has no item at that index the received chunk is the
    encrypted chunk, the fidelity is 0 and the status is [Failed]. *)
Theorem fidelity_gate (chunks encryptedChunks : list jsstring) (qkdKey : jsstring)
    (data : ResponseData) (i : nat) (enc : jsstring) :
  encryptedChunks !! i = Some enc ->
  exists r,
    transmissionResults (build_results chunks encryptedChunks qkdKey data) !! i = Some r /\
    index r = i /\ encryptedChunk r = enc /\
    (status r = OK <-> (50 <= fidelity r)%Q) /\
    (status r = Failed <-> (fidelity r < 50)%Q) /\
    (forall item, default [] (corrected_messages data) !! i = Some (Some item) ->
       receivedChunk r = default enc (corrected_message item) /\
       fidelity r = default 0%Q (item_fidelity item)) /\
    (default [] (corrected_messages data) !! i = None \/
     default [] (corrected_messages data) !! i = Some None ->
       receivedChunk r = enc /\ fidelity r = 0%Q /\ status r = Failed).
Proof.
  intros Henc. eexists. split; [apply transmission_result_lookup, Henc|].
  split; [reflexivity|]. split; [reflexivity|].
  split; [apply status_gate|]. split; [apply status_gate|].
  split.
  - intros item Hitem. cbn [transmission_result receivedChunk fidelity].
    rewrite Hitem. split; reflexivity.
  - intros Hnone. cbn [transmission_result receivedChunk fidelity status].
    destruct Hnone as [-> | ->]; repeat split.
Qed.

Lemma fidelity_gate_witness :
  [str "01"; str "10"; str "11"] !! 1%nat = Some (str "10") /\
  exists r,
    transmissionResults
      (build_results [str "00"; str "11"; str "01"] [str "01"; str "10"; str "11"] (str "101")
         (mkData (Some [Some (mkItem (Some (str "01")) (Some (49999 # 1000)%Q));
                        Some (mkItem (Some (str "11")) (Some 50%Q))])
            None None None None)) !! 1%nat = Some r /\
    index r = 1%nat /\ encryptedChunk r = str "10" /\
    (status r = OK <-> (50 <= fidelity r)%Q) /\
    (status r = Failed <-> (fidelity r < 50)%Q) /\
    (forall item,
       default [] (Some [Some (mkItem (Some (str "01")) (Some (49999 # 1000)%Q));
                         Some (mkItem (Some (str "11")) (Some 50%Q))]) !! 1%nat
         = Some (Some item) ->
       receivedChunk r = default (str "10") (corrected_message item) /\
       fidelity r = default 0%Q (item_fidelity item)) /\
    (default [] (Some [Some (mkItem (Some (str "01")) (Some (49999 # 1000)%Q));
                       Some (mkItem (Some (str "11")) (Some 50%Q))]) !! 1%nat = None \/
     default [] (Some [Some (mkItem (Some (str "01")) (Some (49999 # 1000)%Q));
                       Some (mkItem (Some (str "11")) (Some 50%Q))]) !! 1%nat = Some None ->
       receivedChunk r = str "10" /\ fidelity r = 0%Q /\ status r = Failed).
Proof.
  split; [reflexivity|].
  exact (fidelity_gate [str "00"; str "11"; str "01"] [str "01"; str "10"; str "11"]
           (str "101")
           (mkData (Some [Some (mkItem (Some (str "01")) (Some (49999 # 1000)%Q));
                          Some (mkItem (Some (str "11")) (Some 50%Q))])
              None None None None) 1 (str "10") eq_refl).
Defined.

(** The three cases of the design document: fidelity 49.999 fails, fidelity
    50 passes, and a chunk the backend left out fails with fidelity 0 and its
    own encrypted chunk as the received one. *)
Example fidelity_gate_example :
  map (fun r => (status r, receivedChunk r, fidelity r))
    (transmissionResults
       (build_results [str "00"; str "11"; str "01"] [str "01"; str "10"; str "11"] (str "101")
          (mkData (Some [Some (mkItem (Some (str "01")) (Some (49999 # 1000)%Q));
                         Some (mkItem (Some (str "11")) (Some 50%Q))])
             None None None None)))
  = [(Failed, str "01", (49999 # 1000)%Q); (OK, str "11", 50%Q); (Failed, str "11", 0%Q)].
Proof. vm_compute. reflexivity. Qed.

(** ** MessageReconstructor *)

Lemma reconstruct_chunk_expected (qkdKey : jsstring) (r : TransmissionResult) :
  (status r = Failed -> originalChunk r <> []) ->
  reconstruct_chunk qkdKey r = expected_chunk qkdKey r.
Proof.
  unfold reconstruct_chunk, expected_chunk. destruct (status r); [reflexivity|].
  intros H. destruct (originalChunk r); [now destruct H | reflexivity].
Qed.

Lemma expected_chunk_length (qkdKey : jsstring) (r : TransmissionResult) :
  two_bit_result r -> length (expected_chunk qkdKey r) = 2%nat.
Proof.
  intros [Horig Hrecv]. unfold expected_chunk. destruct (status r); [|exact Horig].
  destruct (Hrecv eq_refl) as [Hlen Hbits].
  destruct qkdKey as [|k key]; [now destruct (receivedChunk r)|].
  rewrite decrypt_unfold by discriminate. now rewrite pad_from_length.
Qed.

(** In a concatenation of two-character pieces, piece [i] sits at positions
    [2i] and [2i+1]. *)
Lemma concat_pairs_slice (pieces : list jsstring) :
  Forall (fun x => length x = 2%nat) pieces ->
  forall i x, pieces !! i = Some x -> slice (2 * i) (2 * i + 2) (concat pieces) = x.
Proof.
  unfold slice. induction 1 as [|y pieces Hy _ IH]; intros i x Hi; [discriminate|].
  replace (2 * i + 2 - 2 * i)%nat with 2%nat by lia.
  destruct i as [|i]; cbn [concat].
  - injection Hi as ->. cbn [Nat.mul drop]. now apply take_app_length'.
  - replace (2 * S i)%nat with (length y + 2 * i)%nat by lia.
    rewrite drop_app_add. specialize (IH i x Hi).
    now replace (2 * i + 2 - 2 * i)%nat with 2%nat in IH by lia.
Qed.

(** What the transmitter builds always has a plain chunk in every result. *)
Lemma build_results_original (chunks encryptedChunks : list jsstring) (qkdKey : jsstring)
    (data : ResponseData) :
  Forall (fun r => originalChunk r <> [])
    (transmissionResults (build_results chunks encryptedChunks qkdKey data)).
Proof.
  apply Forall_lookup. intros i r Hr. cbn [build_results transmissionResults] in Hr.
  rewrite list_lookup_imap in Hr.
  destruct (encryptedChunks !! i) as [enc|]; [|discriminate].
  injection Hr as <-. cbn [transmission_result originalChunk].
  destruct (chunks !! i) as [[|c r]|]; discriminate.
Qed.

(** C3. With a key, and plain chunks that are not empty, the reconstruction
    is the concatenation, in list order, of the decryption of the received
    chunk at the chunk's own key offset for an [OK] chunk and of the plain
    original chunk for a [Failed] one.  When the chunks are two characters
    each, the two characters at positions [2i] and [2i+1] of the
    reconstruction are therefore the original chunk of any failed chunk [i];
    for the fourth of ten chunks (index 3) these are positions 6 and 7. *)
Theorem reconstruct_fallback (sdc : SdcResults) (qkdKey : jsstring) :
  qkdKey <> [] ->
  Forall (fun r => status r = Failed -> originalChunk r <> []) (transmissionResults sdc) ->
  reconstructBinaryData (Some sdc) qkdKey
    = concat (map (expected_chunk qkdKey) (transmissionResults sdc)) /\
  (Forall two_bit_result (transmissionResults sdc) ->
     (forall i r, transmissionResults sdc !! i = Some r -> status r = Failed ->
        slice (2 * i) (2 * i + 2) (reconstructBinaryData (Some sdc) qkdKey)
          = originalChunk r) /\
     (forall r, length (transmissionResults sdc) = 10%nat ->
        transmissionResults sdc !! 3%nat = Some r -> status r = Failed ->
        slice 6 8 (reconstructBinaryData (Some sdc) qkdKey) = originalChunk r)).
Proof.
  intros Hkey Horig.
  assert (E : reconstructBinaryData (Some sdc) qkdKey
              = concat (map (expected_chunk qkdKey) (transmissionResults sdc))).
  { unfold reconstructBinaryData. destruct qkdKey; [congruence|].
    f_equal. apply map_ext_Forall.
    eapply Forall_impl; [exact Horig|].
    intros r Hr. now apply reconstruct_chunk_expected. }
  split; [exact E|]. intros Hwf.
  assert (Hat : forall i r, transmissionResults sdc !! i = Some r -> status r = Failed ->
                slice (2 * i) (2 * i + 2) (reconstructBinaryData (Some sdc) qkdKey)
                = originalChunk r).
  { intros i r Hi Hfailed. rewrite E.
    assert (Hpairs : Forall (fun x => length x = 2%nat)
                       (map (expected_chunk qkdKey) (transmissionResults sdc))).
    { apply Forall_map. eapply Forall_impl; [exact Hwf|].
      intros r' Hr'. now apply expected_chunk_length. }
    rewrite (concat_pairs_slice _ Hpairs i (expected_chunk qkdKey r)).
    - unfold expected_chunk. now rewrite Hfailed.
    - rewrite list_lookup_fmap, Hi. reflexivity. }
  split; [exact Hat|].
  intros r _ Hi Hfailed. exact (Hat 3%nat r Hi Hfailed).
Qed.

Lemma reconstruct_fallback_witness :
  str "101" <> [] /\
  Forall (fun r => status r = Failed -> originalChunk r <> [])
    (transmissionResults ten_chunks) /\
  (reconstructBinaryData (Some ten_chunks) (str "101")
     = concat (map (expected_chunk (str "101")) (transmissionResults ten_chunks)) /\
   (Forall two_bit_result (transmissionResults ten_chunks) ->
      (forall i r, transmissionResults ten_chunks !! i = Some r -> status r = Failed ->
         slice (2 * i) (2 * i + 2) (reconstructBinaryData (Some ten_chunks) (str "101"))
           = originalChunk r) /\
      (forall r, length (transmissionResults ten_chunks) = 10%nat ->
         transmissionResults ten_chunks !! 3%nat = Some r -> status r = Failed ->
         slice 6 8 (reconstructBinaryData (Some ten_chunks) (str "101"))
           = originalChunk r))).
Proof.
  assert (Hkey : str "101" <> []) by discriminate.
  assert (Horig : Forall (fun r => status r = Failed -> originalChunk r <> [])
                    (transmissionResults ten_chunks)).
  { vm_compute. repeat (apply Forall_cons_2; [intros _; discriminate|]). constructor. }
  exact (conj Hkey (conj Horig (reconstruct_fallback ten_chunks (str "101") Hkey Horig))).
Defined.

(** In the run of ten chunks only chunk 3 failed, and characters 6 and 7 of
    the reconstruction are its plain chunk. *)
Example reconstruct_fallback_example :
  map status (transmissionResults ten_chunks)
    = [OK; OK; OK; Failed; OK; OK; OK; OK; OK; OK] /\
  (originalChunk <$> transmissionResults ten_chunks !! 3%nat) = Some (str "00") /\
  (receivedChunk <$> transmissionResults ten_chunks !! 3%nat) = Some (str "10") /\
  reconstructBinaryData (Some ten_chunks) (str "101") = str "01101100101101001110" /\
  slice 6 8 (reconstructBinaryData (Some ten_chunks) (str "101")) = str "00" /\
  Forall two_bit_result (transmissionResults ten_chunks).
Proof.
  repeat split; try (vm_compute; reflexivity).
  vm_compute.
  repeat (apply Forall_cons_2;
          [split; [reflexivity | intros _; split; [reflexivity|];
                   repeat (apply Forall_cons_2; [(left; reflexivity) || (right; reflexivity)|]);
                   constructor]|]).
  constructor.
Qed.

(** ** Endpoint failover *)

Lemma attempts_app (l1 l2 : list ConsoleLine) :
  attempts (l1 ++ l2) = attempts l1 ++ attempts l2.
Proof. apply omap_app. Qed.








Lemma last_message_cons (url : jsstring) (rest : list jsstring) (o : FetchOutcome)
    (rs : list FetchOutcome) (init : option jsstring) :
  last_message (url :: rest) (o :: rs) init
  = last_message rest rs (Some (caught_message url o)).
Proof.
  unfold last_message. cbn [zip_with]. rewrite last_cons.
  destruct (last (zip_with caught_message rest rs)); reflexivity.
Qed.

Section Failover.
Context {World : Type}.
Variable fetch : World -> jsstring -> Request -> FetchOutcome * World.

(** One turn of the loop, with the monad unfolded. *)
Lemma try_urls_cons (all : list jsstring) (req : Request)
    (finish : ResponseData -> SdcResults) (url : jsstring) (rest : list jsstring)
    (lastError : option jsstring) (e : Env) :
  try_urls fetch all req finish (url :: rest) lastError e
  = match fetch (network e) url req with
    | (HttpOk data, w) =>
        (Return (Some (finish data)),
         mkEnv w (console e ++ [Trying url; Connected url]))
    | (o, w) =>
        try_urls fetch all req finish rest (Some (caught_message url o))
          (mkEnv w (console e ++ [Trying url; FailedTo url (caught_message url o)]))
    end.
Proof.
  cbn [try_urls]. unfold bind, log, do_fetch, ret. cbn [network console].
  destruct (fetch (network e) url req) as [o w].
  destruct o; cbn [network console]; rewrite <- app_assoc; reflexivity.
Qed.

(** The loop over the candidates that are left: it stops at the first
    candidate that answers, and throws when none does. *)
Lemma try_urls_run (all : list jsstring) (req : Request)
    (finish : ResponseData -> SdcResults) (urls : list jsstring) :
  forall (lastError : option jsstring) (e : Env),
  let rs := responses fetch (network e) req urls in
  let run := try_urls fetch all req finish urls lastError e in
  (exists n data,
     rs !! n = Some (HttpOk data) /\
     (forall j o, (j < n)%nat -> rs !! j = Some o -> is_failure o) /\
     fst run = Return (Some (finish data)) /\
     attempts (console (snd run)) = attempts (console e) ++ take (S n) urls)
  \/
  (Forall is_failure rs /\
   fst run = Throw (unavailable all (last_message urls rs lastError)) /\
   attempts (console (snd run)) = attempts (console e) ++ urls).
Proof.
  induction urls as [|url rest IH]; intros lastError e; cbn zeta.
  - right. split; [constructor|]. split; [reflexivity|].
    cbn. now rewrite app_nil_r.
  - rewrite try_urls_cons. cbn [responses].
    destruct (fetch (network e) url req) as [o w] eqn:Ef.
    assert (Hfail : is_failure o ->
      forall env, attempts (console env) = attempts (console e) ++ [url] ->
      network env = w ->
      let run := try_urls fetch all req finish rest (Some (caught_message url o)) env in
      (exists n data,
         (o :: responses fetch w req rest) !! n = Some (HttpOk data) /\
         (forall j o', (j < n)%nat -> (o :: responses fetch w req rest) !! j = Some o' ->
                       is_failure o') /\
         fst run = Return (Some (finish data)) /\
         attempts (console (snd run)) = attempts (console e) ++ take (S n) (url :: rest))
      \/
      (Forall is_failure (o :: responses fetch w req rest) /\
       fst run = Throw (unavailable all
                          (last_message (url :: rest) (o :: responses fetch w req rest)
                             lastError)) /\
       attempts (console (snd run)) = attempts (console e) ++ url :: rest)).
    { intros Ho env Hatt Hnet. cbn zeta.
      specialize (IH (Some (caught_message url o)) env). cbn zeta in IH.
      rewrite Hnet, Hatt in IH.
      destruct IH as [(n & data & Hn & Hbefore & Hres & Hrun) | (Hall & Hres & Hrun)].
      - left. exists (S n), data. split; [exact Hn|].
        split; [|split; [exact Hres|]].
        + intros [|j] o' Hj Ho'.
          * injection Ho' as <-. exact Ho.
          * apply (Hbefore j o'); [lia | exact Ho'].
        + rewrite Hrun, <- app_assoc. reflexivity.
      - right. split; [apply Forall_cons_2; assumption|].
        split; [rewrite last_message_cons; exact Hres|].
        rewrite Hrun, <- app_assoc. reflexivity. }
    assert (Hlines : forall l, attempts (console e ++ [Trying url; l])
                               = attempts (console e) ++ [url] ++ attempts [l]).
    { intros l. now rewrite attempts_app. }
    destruct o as [m | em st stt | m | data].
    4: { left. exists 0%nat, data. split; [reflexivity|].
         split; [intros j o Hj; lia|]. split; [reflexivity|].
         cbn [snd console]. rewrite Hlines. reflexivity. }
    all: apply (Hfail I); [cbn [console]; rewrite Hlines; reflexivity | reflexivity].
Qed.

End Failover.




(** The scenario of the design document: the primary times out, the
    fallback answers; the primary is tried exactly once and the result is the
    fallback's.  And on a dead network both endpoints are tried and one error
    is thrown. *)
Example endpoint_failover_example :
  let run := processSuperdenseCoding flaky_network config (str "10") (str "1") (5 # 100) 1024
               (mkEnv 0%nat []) in
  let dead := processSuperdenseCoding dead_network config (str "10") (str "1") (5 # 100) 1024
                (mkEnv 0%nat []) in
  console (snd run)
    = [Trying (str "http://localhost:5008/compare33_corrected");
       FailedTo (str "http://localhost:5008/compare33_corrected")
         (str "The operation was aborted.");
       Trying (str "http://127.0.0.1:5008/compare33_corrected");
       Connected (str "http://127.0.0.1:5008/compare33_corrected")] /\
  network (snd run) = 2%nat /\
  (transmissionResults <$> match fst run with Return r => r | Throw _ => None end)
    = Some [mkResult 0 (str "10") (str "01") (str "01") OK 80 0] /\
  network (snd dead) = 2%nat /\
  fst dead = Throw (str ("Failed to connect to any error correction service. "
                         ++ "Tried: http://localhost:5008/compare33_corrected, "
                         ++ "http://127.0.0.1:5008/compare33_corrected. "
                         ++ "Last error: Failed to fetch")).
Proof. repeat split; vm_compute; reflexivity. Qed.

(** ** JobStreamConsumer *)

Import Receiver.

Lemma job_ids_cons (a : LogEntry) (logs : list LogEntry) :
  job_ids (a :: logs)
  = match job_id a with Some k => k :: job_ids logs | None => job_ids logs end.
Proof. reflexivity. Qed.

Lemma job_ids_app (l1 l2 : list LogEntry) : job_ids (l1 ++ l2) = job_ids l1 ++ job_ids l2.
Proof. apply omap_app. Qed.

Lemma job_ids_elem (id : jsstring) (logs : list LogEntry) :
  id ∈ job_ids logs <-> exists l, l ∈ logs /\ job_id l = Some id.
Proof. apply list_elem_of_omap. Qed.


Lemma job_ids_insert (logs : list LogEntry) :
  forall i old entry, logs !! i = Some old -> job_id old = job_id entry ->
  job_ids (<[i := entry]> logs) = job_ids logs.
Proof.
  induction logs as [|a logs IH]; intros i old entry Hi Hid; [discriminate|].
  destruct i as [|i]; cbn in Hi.
  - injection Hi as ->. cbn [insert list_insert]. rewrite !job_ids_cons, Hid. reflexivity.
  - change (<[S i := entry]> (a :: logs)) with (a :: <[i := entry]> logs).
    rewrite !job_ids_cons, (IH i old entry Hi Hid). reflexivity.
Qed.

(** A job already in the log: its entry is replaced where it stands. *)
Lemma upsert_seen (id : jsstring) (entry : LogEntry) (prev : list LogEntry) :
  id ∈ job_ids prev ->
  exists i old, prev !! i = Some old /\ job_id old = Some id /\
                upsert id entry prev = <[i := entry]> prev.
Proof.
  intros Hin. unfold upsert.
  destruct (list_find (same_job id) prev) as [[i old]|] eqn:E.
  - apply list_find_Some in E as (Hi & Hold & _). now exists i, old.
  - apply list_find_None in E. apply job_ids_elem in Hin as (l & Hl & Hid).
    rewrite Forall_forall in E. destruct (E l Hl Hid).
Qed.

(** A job not yet in the log: its entry goes to the end. *)
Lemma upsert_unseen (id : jsstring) (entry : LogEntry) (prev : list LogEntry) :
  id ∉ job_ids prev -> upsert id entry prev = prev ++ [entry].
Proof.
  intros Hnot. unfold upsert.
  destruct (list_find (same_job id) prev) as [[i old]|] eqn:E; [|reflexivity].
  apply list_find_Some in E as (Hi & Hold & _). destruct Hnot.
  apply job_ids_elem. exists old. split; [now apply list_elem_of_lookup_2 with i | exact Hold].
Qed.





Section Consumer.
Context {Result : Type}.
Implicit Types (s : State Result) (e : Signal Result) (events : list (Signal Result)).

Lemma job_ids_snoc_info (logs : list LogEntry) (ty m : jsstring) :
  job_ids (logs ++ [mkLog None ty m]) = job_ids logs.
Proof. rewrite job_ids_app. cbn. apply app_nil_r. Qed.





(** Once the stream is closed nothing changes any more. *)
Lemma run_closed events : forall s, connected s = false -> run s events = s.
Proof.
  induction events as [|e events IH]; intros s Hs; [reflexivity|].
  cbn [run foldl]. unfold step at 2. rewrite Hs. now apply IH.
Qed.



End Consumer.

(** The scenario of the design document: one job reported twice, then done.
    The log ends with one entry for the job, the one of the second event. *)
Example job_stream_scenario :
  let s := run (@initial nat)
             [onopen;
              onmessage (start 2);
              onmessage (progress_event (str "a") 1 2 (Some (str "progress")) (str "running"));
              onmessage (progress_event (str "a") 2 2 (Some (str "success")) (str "decoded"));
              onmessage (done 7%nat);
              onmessage (progress_event (str "b") 1 2 None (str "late"))] in
  progressLogs s
    = [mkLog None (str "info") (str "Connection opened. Searching for pending jobs...");
       mkLog None (str "info") (str "Found 2 jobs to process.");
       mkLog (Some (str "a")) (str "success") (str "[2/2] Job a...: decoded");
       mkLog None (str "success") (str "All jobs processed successfully!")] /\
  decodedResult s = Some 7%nat /\ progress s = Fin 100 /\
  connected s = false /\ loading s = false.
Proof. repeat split; vm_compute; reflexivity. Qed.

(* ================================================================== *)
(** * Part III: further properties of the code                         *)
(* ================================================================== *)

(** ** The character pad *)

Import CharPad Terms.





Example otp_char_example :
  otpEncrypt (str "0110") (str "101") = str "1101" /\
  otpEncrypt (str "Hi") (str "17") = str "In" /\
  otpEncrypt (str "0110") [] = str "0110".
Proof. repeat split; vm_compute; reflexivity. Qed.

(** On a data bit the character pad and the chunk pad write the same
    character. *)
Lemma pad_char_fromCharCode (c : ascii) (o : option ascii) :
  is_bit c -> pad_char c o = fromCharCode (xor (Some (code c)) (parseInt_char o)).
Proof.
  intros Hc. unfold pad_char.
  destruct (parseInt_char_range o) as [Hk | (d & Hk & Hd)]; rewrite Hk; clear Hk.
  - destruct Hc as [-> | ->]; vm_compute; reflexivity.
  - destruct Hc as [-> | ->];
      repeat (destruct Hd as [-> | Hd]; [vm_compute; reflexivity|]);
      subst d; vm_compute; reflexivity.
Qed.

Lemma pad_from_char_pad_from (key : jsstring) (cs : jsstring) :
  bitstring cs -> forall i, pad_from key 0 i cs = char_pad_from key i cs.
Proof.
  induction 1 as [|c cs Hc _ IH]; intros i; [reflexivity|].
  rewrite pad_from_bits by assumption. cbn [char_pad_from].
  rewrite IH, Z.add_0_l. f_equal. now apply pad_char_fromCharCode.
Qed.

(** X2. On a string of bits the character pad of the page is the chunk pad
    at offset 0, for every key; so with a key the encrypted message the page
    shows is what the chunks sent to the backend spell, cut to the length of
    the message. *)
Theorem otpEncrypt_is_chunk_pad (message key : jsstring) :
  bitstring message ->
  otpEncrypt message key = oneTimePadEncrypt message key 0 /\
  (key <> [] ->
   take (length message) (concat (encrypt_chunks (split_chunks message) key))
   = otpEncrypt message key).
Proof.
  intros Hbits.
  assert (E : otpEncrypt message key = oneTimePadEncrypt message key 0).
  { destruct key as [|k key]; [now destruct message|].
    rewrite encrypt_unfold by discriminate. unfold otpEncrypt.
    symmetry. now apply pad_from_char_pad_from. }
  split; [exact E|]. intros Hkey.
  rewrite E, split_chunks_chunks_of, encrypt_unfold by assumption.
  exact (encrypt_chunks_from key message Hkey Hbits 0%nat).
Qed.

Lemma otpEncrypt_is_chunk_pad_witness :
  bitstring (str "10110") /\
  (otpEncrypt (str "10110") (str "110") = oneTimePadEncrypt (str "10110") (str "110") 0 /\
   (str "110" <> [] ->
    take (length (str "10110")) (concat (encrypt_chunks (split_chunks (str "10110")) (str "110")))
    = otpEncrypt (str "10110") (str "110"))).
Proof.
  assert (Hb : bitstring (str "10110")).
  { repeat (apply Forall_cons_2; [(left; reflexivity) || (right; reflexivity)|]). constructor. }
  exact (conj Hb (otpEncrypt_is_chunk_pad (str "10110") (str "110") Hb)).
Defined.

(** ** The error probability and the averages of the page *)

Lemma p_error_cases (S : Q) :
  ((Qabs S <= 2)%Q /\ Page.p_error (Some (Fin S)) = (25 # 100)%Q) \/
  ((2 < Qabs S < 24 # 10)%Q /\ Page.p_error (Some (Fin S)) = (12 # 100)%Q) \/
  ((24 # 10 <= Qabs S)%Q /\ Page.p_error (Some (Fin S)) = (3 # 100)%Q).
Proof.
  unfold Page.p_error, Page.le_const, Page.lt_const, Page.abs.
  destruct (Qle_bool (Qabs S) 2) eqn:E1.
  - left. split; [now apply Qle_bool_iff | reflexivity].
  - assert (H1 : (2 < Qabs S)%Q).
    { apply Qnot_le_lt. intros H. apply Qle_bool_iff in H. congruence. }
    destruct (Qle_bool (24 # 10) (Qabs S)) eqn:E2; cbn [negb].
    + right. right. split; [now apply Qle_bool_iff | reflexivity].
    + right. left. split; [|reflexivity]. split; [exact H1|].
      apply Qnot_le_lt. intros H. apply Qle_bool_iff in H. congruence.
Qed.

(** X3. The error probability handed to the transmitter is one of 0.05
    (no CHSH value stored), 0.25, 0.12 and 0.03; for a finite CHSH value [S]
    it depends on [|S|] only, by the thresholds 2 and 2.4, and it never grows
    when [|S|] grows; a stored value that is [NaN] or infinite gives 0.03. *)
Theorem p_error_policy :
  (forall v, Page.p_error v = (5 # 100)%Q \/ Page.p_error v = (25 # 100)%Q \/
             Page.p_error v = (12 # 100)%Q \/ Page.p_error v = (3 # 100)%Q) /\
  (forall S,
     ((Qabs S <= 2)%Q -> Page.p_error (Some (Fin S)) = (25 # 100)%Q) /\
     ((2 < Qabs S < 24 # 10)%Q -> Page.p_error (Some (Fin S)) = (12 # 100)%Q) /\
     ((24 # 10 <= Qabs S)%Q -> Page.p_error (Some (Fin S)) = (3 # 100)%Q)) /\
  (forall S S', (Qabs S <= Qabs S')%Q ->
     (Page.p_error (Some (Fin S')) <= Page.p_error (Some (Fin S)))%Q) /\
  (forall S, Page.p_error (Some (Fin (- S))) = Page.p_error (Some (Fin S))) /\
  Page.p_error None = (5 # 100)%Q /\
  Page.p_error (Some NaN) = (3 # 100)%Q /\
  Page.p_error (Some PosInf) = (3 # 100)%Q /\
  Page.p_error (Some NegInf) = (3 # 100)%Q.
Proof.
  split; [|split; [|split; [|split; [|repeat split]]]].
  - intros [[| | |S]|]; try (right; right; right; reflexivity); [|left; reflexivity].
    destruct (p_error_cases S) as [[_ ->] | [[_ ->] | [_ ->]]]; tauto.
  - intros S.
    destruct (p_error_cases S) as [[H ->] | [[H ->] | [H ->]]];
      repeat split; intros H'; try reflexivity; exfalso; lra.
  - intros S S' Hle.
    destruct (p_error_cases S) as [[H ->] | [[H ->] | [H ->]]];
      destruct (p_error_cases S') as [[H' ->] | [[H' ->] | [H' ->]]];
      try (vm_compute; discriminate); exfalso; lra.
  - intros S. pose proof (Qabs_opp S) as Eabs.
    destruct (p_error_cases S) as [[H ->] | [[H ->] | [H ->]]];
      destruct (p_error_cases (- S)) as [[H' ->] | [[H' ->] | [H' ->]]];
      try reflexivity; exfalso; rewrite Eabs in H'; lra.
Qed.




(** ** BinaryCodec, the other way round *)








Lemma binaryToLatLon_app (binary extra : jsstring) :
  (65 <= length binary)%nat ->
  binaryToLatLon (binary ++ extra) = binaryToLatLon binary.
Proof.
  intros Hlen.
  rewrite !binaryToLatLon_long by (rewrite ?length_app; lia).
  unfold slice. rewrite !drop_app_le, !take_app_le, lookup_app_l
    by (rewrite ?length_drop; lia).
  reflexivity.
Qed.

(** X6. Only the first 65 characters count: whatever follows them, the
    padding of the last chunk included, does not change the decoded record. *)
Theorem binaryToLatLon_ignores_tail (binary extra : jsstring) :
  (65 <= length binary)%nat ->
  binaryToLatLon (binary ++ extra) = binaryToLatLon binary.
Proof.
  intros Hlen.
  rewrite !binaryToLatLon_long by (rewrite ?length_app; lia).
  unfold slice. rewrite !drop_app_le, !take_app_le, lookup_app_l
    by (rewrite ?length_drop; lia).
  reflexivity.
Qed.

Lemma binaryToLatLon_ignores_tail_witness :
  (65 <= length (replicate 65 "1"%char))%nat /\
  binaryToLatLon (replicate 65 "1"%char ++ str "0") = binaryToLatLon (replicate 65 "1"%char).
Proof.
  assert (H : (65 <= length (replicate 65 "1"%char))%nat) by (vm_compute; lia).
  exact (conj H (binaryToLatLon_ignores_tail (replicate 65 "1"%char) (str "0") H)).
Defined.

(** ** The results of a transmission and what is rebuilt from them *)

Lemma chunks_of_bitstring (d : jsstring) :
  bitstring d -> Forall bitstring (chunks_of d).
Proof.
  induction d as [| a | a b r IH] using list_pair_ind; intros Hd; cbn [chunks_of].
  - constructor.
  - apply Forall_cons in Hd as [Ha _]. apply Forall_cons_2; [|constructor].
    apply Forall_cons_2; [exact Ha|]. apply Forall_cons_2; [apply is_bit_zero | constructor].
  - apply Forall_cons in Hd as [Ha Hd]. apply Forall_cons in Hd as [Hb Hd].
    apply Forall_cons_2; [|now apply IH].
    apply Forall_cons_2; [exact Ha|]. apply Forall_cons_2; [exact Hb | constructor].
Qed.

(** Result [i] of a transmission, field by field. *)
Lemma pipeline_lookup (binaryData qkdKey : jsstring) (data : ResponseData) (i : nat)
    (r : TransmissionResult) :
  transmissionResults
    (build_results (split_chunks binaryData)
       (encrypt_chunks (split_chunks binaryData) qkdKey) qkdKey data) !! i = Some r ->
  exists ch,
    split_chunks binaryData !! i = Some ch /\ length ch = 2%nat /\
    (bitstring binaryData -> bitstring ch) /\
    index r = i /\ originalChunk r = ch /\
    encryptedChunk r = oneTimePadEncrypt ch qkdKey (key_offset i qkdKey) /\
    keyOffset r = key_offset i qkdKey.
Proof.
  intros Hr. cbn [build_results transmissionResults] in Hr.
  apply list_lookup_imap_Some in Hr as (enc & Henc & ->).
  unfold encrypt_chunks in Henc.
  apply list_lookup_imap_Some in Henc as (ch & Hch & ->).
  exists ch. split; [exact Hch|].
  assert (Hlen : length ch = 2%nat).
  { rewrite split_chunks_chunks_of in Hch.
    pose proof (chunks_of_lengths binaryData) as Hall.
    rewrite Forall_lookup in Hall. exact (Hall i ch Hch). }
  split; [exact Hlen|]. split.
  - intros Hbits. rewrite split_chunks_chunks_of in Hch.
    pose proof (chunks_of_bitstring binaryData Hbits) as Hall.
    rewrite Forall_lookup in Hall. exact (Hall i ch Hch).
  - cbn [transmission_result index originalChunk encryptedChunk keyOffset].
    rewrite Hch. destruct ch; [discriminate | repeat split].
Qed.

(** X7. A transmission yields exactly one result per chunk, in chunk order:
    result [i] carries the index [i], chunk [i] as sent and as encrypted, and
    the key offset [(2 * i) % key.length]; there are [ceil(len/2)] results,
    and the count of successful ones is the number of results marked [OK],
    never more than the total. *)
Theorem transmission_results_shape (binaryData qkdKey : jsstring) (data : ResponseData) :
  let chunks := split_chunks binaryData in
  let sdc := build_results chunks (encrypt_chunks chunks qkdKey) qkdKey data in
  map index (transmissionResults sdc) = seq 0 (length chunks) /\
  map originalChunk (transmissionResults sdc) = chunks /\
  map encryptedChunk (transmissionResults sdc) = encrypt_chunks chunks qkdKey /\
  map keyOffset (transmissionResults sdc)
    = map (fun i => key_offset i qkdKey) (seq 0 (length chunks)) /\
  totalChunks sdc = length (transmissionResults sdc) /\
  totalChunks sdc = ((length binaryData + 1) / 2)%nat /\
  successfulTransmissions sdc
    = length (filter (fun r => status r = OK) (transmissionResults sdc)) /\
  (successfulTransmissions sdc <= totalChunks sdc)%nat.
Proof.
  cbn zeta.
  set (sdc := build_results (split_chunks binaryData)
                (encrypt_chunks (split_chunks binaryData) qkdKey) qkdKey data).
  assert (Hlen : length (transmissionResults sdc) = length (split_chunks binaryData)).
  { subst sdc. cbn [build_results transmissionResults].
    unfold encrypt_chunks. now rewrite !length_imap. }
  assert (Hfield : forall {A} (f : TransmissionResult -> A) (l : list A),
            length l = length (split_chunks binaryData) ->
            (forall i r x, transmissionResults sdc !! i = Some r -> l !! i = Some x -> f r = x) ->
            map f (transmissionResults sdc) = l).
  { intros A f l Hl Hall.
    apply (list_eq_same_length _ _ (length (split_chunks binaryData)));
      [exact Hl | now rewrite length_map|].
    intros i x y _ Hx Hy. rewrite list_lookup_fmap in Hx.
    destruct (transmissionResults sdc !! i) as [r|] eqn:Hr; [|discriminate].
    injection Hx as <-. exact (Hall i r y Hr Hy). }
  split; [|split; [|split; [|split]]].
  - apply Hfield; [now rewrite length_seq|].
    intros i r x Hr Hx. apply lookup_seq in Hx as [-> _].
    destruct (pipeline_lookup _ _ _ _ _ Hr) as (ch & _ & _ & _ & Hi & _). exact Hi.
  - apply Hfield; [reflexivity|].
    intros i r x Hr Hx.
    destruct (pipeline_lookup _ _ _ _ _ Hr) as (ch & Hch & _ & _ & _ & Ho & _). congruence.
  - apply Hfield; [unfold encrypt_chunks; now rewrite length_imap|].
    intros i r x Hr Hx.
    destruct (pipeline_lookup _ _ _ _ _ Hr) as (ch & Hch & _ & _ & _ & _ & He & _).
    unfold encrypt_chunks in Hx. rewrite list_lookup_imap, Hch in Hx.
    injection Hx as <-. exact He.
  - apply Hfield; [now rewrite length_map, length_seq|].
    intros i r x Hr Hx.
    destruct (pipeline_lookup _ _ _ _ _ Hr) as (ch & Hch & _ & _ & _ & _ & _ & Hk).
    rewrite list_lookup_fmap in Hx.
    destruct (seq 0 (length (split_chunks binaryData)) !! i) as [j|] eqn:Hj; [|discriminate].
    apply lookup_seq in Hj as [-> _]. injection Hx as <-. exact Hk.
  - assert (Hsucc : successfulTransmissions sdc
                    = length (filter (fun r => status r = OK) (transmissionResults sdc))).
    { subst sdc. cbn [build_results successfulTransmissions transmissionResults].
      f_equal. apply list_filter_iff. intros r. unfold is_OK.
      destruct (status r); split; congruence. }
    assert (Htotal : totalChunks sdc = length (transmissionResults sdc))
      by (now rewrite Hlen).
    split; [exact Htotal|]. split.
    + change (totalChunks sdc) with (length (split_chunks binaryData)).
      rewrite split_chunks_chunks_of. apply chunks_of_count.
    + split; [exact Hsucc|]. rewrite Hsucc, Htotal. apply length_filter.
Qed.

(** On strings of bits, reading a pad backwards: [x] decrypts to [y] exactly
    when [x] is the encryption of [y]. *)
Lemma pad_from_swap (key : jsstring) (off : Z) (x y : jsstring) :
  bitstring x -> bitstring y ->
  (pad_from key off 0 x = y <-> x = pad_from key off 0 y).
Proof.
  intros Hx Hy. split; intros E.
  - rewrite <- E. symmetry. now apply pad_from_involutive.
  - rewrite E. now apply pad_from_involutive.
Qed.

(** X8. In a transmission of a string of bits under a key, a chunk whose
    received value is a string of bits is rebuilt as it was sent exactly when
    it was marked [Failed] or was received as it had been encrypted: a chunk
    marked [OK] that the channel changed is rebuilt wrong. *)
Theorem chunk_rebuilt_iff (binaryData qkdKey : jsstring) (data : ResponseData)
    (i : nat) (r : TransmissionResult) :
  bitstring binaryData -> qkdKey <> [] ->
  transmissionResults
    (build_results (split_chunks binaryData)
       (encrypt_chunks (split_chunks binaryData) qkdKey) qkdKey data) !! i = Some r ->
  bitstring (receivedChunk r) ->
  (reconstruct_chunk qkdKey r = originalChunk r
   <-> status r = Failed \/ receivedChunk r = encryptedChunk r).
Proof.
  intros Hbits Hkey Hr Hrecv.
  destruct (pipeline_lookup _ _ _ _ _ Hr) as (ch & _ & Hlen & Hch & _ & Ho & He & Hk).
  specialize (Hch Hbits). unfold reconstruct_chunk.
  destruct (status r).
  - rewrite decrypt_unfold, He, encrypt_unfold, Hk, Ho by assumption.
    rewrite (pad_from_swap qkdKey _ _ ch Hrecv Hch).
    split; [now right | intros [? | ?]; [discriminate | assumption]].
  - split; [now left | intros _]. rewrite Ho. destruct ch; [discriminate | reflexivity].
Qed.

Lemma chunk_rebuilt_iff_witness :
  bitstring (str "0110") /\ str "101" <> [] /\
  transmissionResults
    (build_results (split_chunks (str "0110"))
       (encrypt_chunks (split_chunks (str "0110")) (str "101")) (str "101")
       (mkData (Some [Some (mkItem (Some (str "00")) (Some 90%Q))]) None None None None))
    !! 0%nat
  = Some (mkResult 0 (str "01") (str "11") (str "00") OK 90 0) /\
  bitstring (receivedChunk (mkResult 0 (str "01") (str "11") (str "00") OK 90 0)) /\
  (reconstruct_chunk (str "101") (mkResult 0 (str "01") (str "11") (str "00") OK 90 0)
     = originalChunk (mkResult 0 (str "01") (str "11") (str "00") OK 90 0)
   <-> status (mkResult 0 (str "01") (str "11") (str "00") OK 90 0) = Failed \/
       receivedChunk (mkResult 0 (str "01") (str "11") (str "00") OK 90 0)
       = encryptedChunk (mkResult 0 (str "01") (str "11") (str "00") OK 90 0)).
Proof.
  assert (H1 : bitstring (str "0110")).
  { repeat (apply Forall_cons_2; [(left; reflexivity) || (right; reflexivity)|]). constructor. }
  assert (H2 : str "101" <> []) by discriminate.
  assert (H3 : transmissionResults
                 (build_results (split_chunks (str "0110"))
                    (encrypt_chunks (split_chunks (str "0110")) (str "101")) (str "101")
                    (mkData (Some [Some (mkItem (Some (str "00")) (Some 90%Q))])
                       None None None None)) !! 0%nat
               = Some (mkResult 0 (str "01") (str "11") (str "00") OK 90 0))
    by (vm_compute; reflexivity).
  assert (H4 : bitstring (receivedChunk (mkResult 0 (str "01") (str "11") (str "00") OK 90 0))).
  { repeat (apply Forall_cons_2; [(left; reflexivity) || (right; reflexivity)|]). constructor. }
  exact (conj H1 (conj H2 (conj H3 (conj H4
    (chunk_rebuilt_iff (str "0110") (str "101") _ 0 _ H1 H2 H3 H4))))).
Defined.

Lemma reconstruct_unfold (sdc : SdcResults) (qkdKey : jsstring) :
  qkdKey <> [] ->
  reconstructBinaryData (Some sdc) qkdKey
  = concat (map (reconstruct_chunk qkdKey) (transmissionResults sdc)).
Proof. intros Hkey. unfold reconstructBinaryData. destruct qkdKey; congruence. Qed.

Lemma reconstruct_unchanged (binaryData qkdKey : jsstring) (data : ResponseData) :
  bitstring binaryData -> qkdKey <> [] ->
  let sdc := build_results (split_chunks binaryData)
               (encrypt_chunks (split_chunks binaryData) qkdKey) qkdKey data in
  (forall r, r ∈ transmissionResults sdc -> status r = OK ->
             receivedChunk r = encryptedChunk r) ->
  reconstructBinaryData (Some sdc) qkdKey
  = binaryData ++ replicate (length binaryData mod 2)%nat "0"%char.
Proof.
  intros Hbits Hkey sdc Hecho.
  rewrite <- chunks_of_concat, <- split_chunks_chunks_of.
  rewrite reconstruct_unfold by assumption. f_equal.
  apply (list_eq_same_length _ _ (length (split_chunks binaryData))); [reflexivity | |].
  - rewrite length_map. subst sdc. cbn [build_results transmissionResults].
    unfold encrypt_chunks. now rewrite !length_imap.
  - intros i x y _ Hx Hy. rewrite list_lookup_fmap in Hx.
    destruct (transmissionResults sdc !! i) as [r|] eqn:Hr; [|discriminate].
    injection Hx as <-.
    destruct (pipeline_lookup _ _ _ _ _ Hr) as (ch & Hch & Hlen & Hchb & _ & Ho & He & Hk).
    assert (ch = y) as -> by congruence. specialize (Hchb Hbits).
    unfold reconstruct_chunk. destruct (status r) eqn:Hs.
    + rewrite (Hecho r (list_elem_of_lookup_2 _ _ _ Hr) Hs), He, Hk.
      rewrite decrypt_unfold, encrypt_unfold by assumption.
      now apply pad_from_involutive.
    + rewrite Ho. destruct y; [discriminate | reflexivity].
Qed.



(** ** The page handler *)

Lemma padStart_at_least (n : nat) (c : ascii) (s : jsstring) :
  (n <= length (padStart n c s))%nat.
Proof. unfold padStart. rewrite length_app, length_replicate. lia. Qed.

(** The record is never encoded in fewer than 65 characters. *)
Lemma combinedBin_long (lat lon : option Q) (flag : option jsstring) :
  (65 <= length (combinedBin lat lon flag))%nat.
Proof.
  unfold combinedBin. rewrite !length_app.
  assert (H1 : (32 <= length match lat with
                             | Some v => floatToBinary v 32
                             | None => padStart 32 "0" []
                             end)%nat)
    by (destruct lat; apply padStart_at_least).
  assert (H2 : (32 <= length match lon with
                             | Some v => floatToBinary v 32
                             | None => padStart 32 "0" []
                             end)%nat)
    by (destruct lon; apply padStart_at_least).
  destruct (bool_decide _); cbn [length str list_ascii_of_string]; lia.
Qed.

(** The decoding of the encoded record, as a lemma that later proofs share. *)
Lemma combinedBin_decodes (latitude longitude : Q) (flag : bool) :
  (-180 <= latitude < 180)%Q -> (-180 <= longitude < 180)%Q ->
  let encoded := combinedBin (Some latitude) (Some longitude) (Some (yes_no flag)) in
  bitstring encoded /\ length encoded = 65%nat /\
  exists lat' lon',
    binaryToLatLon encoded
      = mkLatLon (Some (Fin lat')) (Some (Fin lon')) (Some (yes_no flag)) /\
    (Qabs (lat' - latitude) <= 1 # 100000)%Q /\
    (Qabs (lon' - longitude) <= 1 # 100000)%Q.
Proof.
  intros Hlat Hlon encoded.
  destruct (floatToBinary_in_range latitude Hlat) as (Hb1 & Hl1 & _).
  destruct (floatToBinary_in_range longitude Hlon) as (Hb2 & Hl2 & _).
  destruct (binaryToFloat_near latitude Hlat) as (lat' & Elat & Hlat').
  destruct (binaryToFloat_near longitude Hlon) as (lon' & Elon & Hlon').
  set (r := if flag then "1"%char else "0"%char).
  assert (Eenc : encoded = floatToBinary latitude 32 ++ floatToBinary longitude 32 ++ [r]).
  { subst encoded r. unfold combinedBin. now destruct flag. }
  assert (Hr : is_bit r) by (subst r; destruct flag; [right | left]; reflexivity).
  assert (Hlen : length encoded = 65%nat).
  { rewrite Eenc, !length_app, Hl1, Hl2. reflexivity. }
  split; [|split; [exact Hlen|]].
  - rewrite Eenc. apply Forall_app_2; [exact Hb1|]. apply Forall_app_2; [exact Hb2|].
    apply Forall_cons_2; [exact Hr | constructor].
  - exists lat', lon'. split; [|split; assumption].
    rewrite binaryToLatLon_long by lia.
    assert (E1 : slice 0 32 encoded = floatToBinary latitude 32).
    { unfold slice. rewrite Eenc. cbn [drop Nat.sub]. apply take_app_length'. congruence. }
    assert (E2 : slice 32 64 encoded = floatToBinary longitude 32).
    { unfold slice. rewrite Eenc. rewrite drop_app_length' by congruence.
      apply take_app_length'. cbn [Nat.sub]. congruence. }
    assert (E3 : encoded !! 64%nat = Some r).
    { rewrite Eenc, app_assoc. apply list_lookup_middle.
      rewrite length_app, Hl1, Hl2. reflexivity. }
    rewrite E1, E2, E3, Elat, Elon. subst r. now destruct flag.
Qed.

Section RunPage.
Context {World : Type}.
Variable fetch : World -> jsstring -> Request -> FetchOutcome * World.
Implicit Types (e : @Env World) (st : Page.PageState) (inp : Page.Inputs).

(** With data and a key the transmitter returns a result or throws; it never
    returns [null]. *)
Lemma transmit_outcome (cfg : ErrorCorrectionConfig) (binaryData qkdKey : jsstring)
    (p : Q) (shots : Z) e :
  binaryData <> [] -> qkdKey <> [] ->
  let run := processSuperdenseCoding fetch cfg binaryData qkdKey p shots e in
  (exists data,
     fst run = Return (Some (build_results (split_chunks binaryData)
                               (encrypt_chunks (split_chunks binaryData) qkdKey)
                               qkdKey data)))
  \/ (exists message, fst run = Throw message).
Proof.
  intros Hd Hk. cbn zeta.
  assert (Erun : processSuperdenseCoding fetch cfg binaryData qkdKey p shots e
                 = try_urls fetch (urlsToTry cfg)
                     (mkRequest (encrypt_chunks (split_chunks binaryData) qkdKey) shots p)
                     (build_results (split_chunks binaryData)
                        (encrypt_chunks (split_chunks binaryData) qkdKey) qkdKey)
                     (urlsToTry cfg) None e).
  { unfold processSuperdenseCoding. destruct binaryData, qkdKey; congruence. }
  rewrite Erun.
  destruct (try_urls_run fetch (urlsToTry cfg)
              (mkRequest (encrypt_chunks (split_chunks binaryData) qkdKey) shots p)
              (build_results (split_chunks binaryData)
                 (encrypt_chunks (split_chunks binaryData) qkdKey) qkdKey)
              (urlsToTry cfg) None e)
    as [(n & data & _ & _ & Hres & _) | (_ & Hres & _)].
  - left. now exists data.
  - right. eexists. exact Hres.
Qed.

(** The handler with a key, in terms of the transmitter. *)
Lemma handler_with_key (cfg : ErrorCorrectionConfig) inp st e (key : jsstring) :
  Page.storedQkdKey inp = Some key -> key <> [] ->
  let combined := combinedBin (Page.predictedLat inp) (Page.predictedLon inp)
                    (Page.predictedRestricted inp) in
  let sent := processSuperdenseCoding fetch cfg combined key
                (Page.p_error (Page.chshValue inp)) 1024 e in
  let st1 := Page.prepared st combined (otpEncrypt combined key) in
  Page.handleRunFullSimulation fetch cfg inp st e
  = (match fst sent with
     | Throw message =>
         Page.caught st1 (str "Error during quantum transmission: " ++ message)
     | Return None =>
         Page.caught st1 (str "SDC transmission failed: No response from server")
     | Return (Some sdcRes) => Page.completed inp st1 key sdcRes
     end, snd sent).
Proof.
  intros Hkey Hne. cbn zeta. unfold Page.handleRunFullSimulation. rewrite Hkey.
  destruct key as [|k key]; [congruence|]. unfold bind.
  destruct (processSuperdenseCoding fetch cfg _ _ _ _ e) as [[[sdc|]|m] e'];
    reflexivity.
Qed.


(** X11. With a stored key the handler sends the encoded record and ends in
    one of two ways.  Either an endpoint answered: no error is shown, and the
    rebuilt string, the stored cipher text (the received chunks joined) and
    the decoded flag all come from that answer.  Or the transmitter threw:
    the error shown is its message behind [Error during quantum
    transmission: ], and the results of an earlier run stay.  It stops
    loading either way, and never reports that the server gave no response. *)
Theorem run_with_key (cfg : ErrorCorrectionConfig) inp st e (key : jsstring) :
  Page.storedQkdKey inp = Some key -> key <> [] ->
  let combined := combinedBin (Page.predictedLat inp) (Page.predictedLon inp)
                    (Page.predictedRestricted inp) in
  let sent := processSuperdenseCoding fetch cfg combined key
                (Page.p_error (Page.chshValue inp)) 1024 e in
  let run := Page.handleRunFullSimulation fetch cfg inp st e in
  snd run = snd sent /\
  Page.isLoading (fst run) = false /\
  Page.combinedBinary (fst run) = combined /\
  Page.encryptedMessage (fst run) = otpEncrypt combined key /\
  Page.error (fst run) <> Some (str "SDC transmission failed: No response from server") /\
  ((exists data,
      let sdc := build_results (split_chunks combined)
                   (encrypt_chunks (split_chunks combined) key) key data in
      fst sent = Return (Some sdc) /\
      Page.error (fst run) = None /\
      Page.sdcResults (fst run) = Some sdc /\
      Page.decryptedMessage (fst run) = reconstructBinaryData (Some sdc) key /\
      Page.storedEncryptedBinary (fst run)
        = Some (concat (map receivedChunk (transmissionResults sdc))) /\
      Page.decryptedRestricted (fst run)
        = restricted (binaryToLatLon (reconstructBinaryData (Some sdc) key)))
   \/
   (exists message,
      fst sent = Throw message /\
      Page.error (fst run) = Some (str "Error during quantum transmission: " ++ message) /\
      Page.sdcResults (fst run) = Page.sdcResults st /\
      Page.decryptedMessage (fst run) = Page.decryptedMessage st /\
      Page.storedEncryptedBinary (fst run) = Page.storedEncryptedBinary st)).
Proof.
  intros Hkey Hne. cbn zeta. rewrite (handler_with_key cfg inp st e key Hkey Hne).
  cbn zeta. cbn [fst snd]. split; [reflexivity|].
  assert (Hcomb : combinedBin (Page.predictedLat inp) (Page.predictedLon inp)
                    (Page.predictedRestricted inp) <> []).
  { intros E. pose proof (combinedBin_long (Page.predictedLat inp) (Page.predictedLon inp)
                            (Page.predictedRestricted inp)) as H.
    rewrite E in H. cbn in H. lia. }
  destruct (transmit_outcome cfg _ key (Page.p_error (Page.chshValue inp)) 1024 e Hcomb Hne)
    as [(data & ->) | (message & ->)].
  - repeat split; try discriminate. left. exists data. repeat split.
  - repeat split; try discriminate. right. exists message. repeat split.
Qed.

End RunPage.


Lemma run_with_key_witness :
  Page.storedQkdKey ready_inputs = Some (str "101") /\ str "101" <> [] /\
  Page.isLoading (fst (Page.handleRunFullSimulation flaky_network config ready_inputs
                         Page.fresh (mkEnv 0%nat []))) = false /\
  Page.error (fst (Page.handleRunFullSimulation flaky_network config ready_inputs
                     Page.fresh (mkEnv 0%nat [])))
    <> Some (str "SDC transmission failed: No response from server").
Proof.
  assert (H1 : Page.storedQkdKey ready_inputs = Some (str "101")) by reflexivity.
  assert (H2 : str "101" <> []) by discriminate.
  pose proof (run_with_key flaky_network config ready_inputs Page.fresh (mkEnv 0%nat [])
                (str "101") H1 H2) as H.
  cbn zeta in H. destruct H as (_ & Hload & _ & _ & Hnever & _).
  exact (conj H1 (conj H2 (conj Hload Hnever))).
Defined.

(** A run on the flaky network and on the dead one. *)
Example run_examples :
  let ok := Page.handleRunFullSimulation flaky_network config ready_inputs Page.fresh
              (mkEnv 0%nat []) in
  let dead := Page.handleRunFullSimulation dead_network config ready_inputs Page.fresh
                (mkEnv 0%nat []) in
  Page.error (fst ok) = None /\
  Page.combinedBinary (fst ok)
    = str "00000001001001010111111011000100000000001001110000101010110010001" /\
  Page.decryptedMessage (fst ok)
    = str "000000010010010101111110110001000000000010011100001010101100100010" /\
  Page.decryptedRestricted (fst ok) = Some (str "Yes") /\
  (Page.communication_status <$> Page.results (fst ok))
    = Some (str "1/33 qubits transmitted successfully") /\
  network (snd ok) = 2%nat /\
  Page.error (fst dead)
    = Some (str ("Error during quantum transmission: "
                 ++ "Failed to connect to any error correction service. "
                 ++ "Tried: http://localhost:5008/compare33_corrected, "
                 ++ "http://127.0.0.1:5008/compare33_corrected. "
                 ++ "Last error: Failed to fetch")) /\
  Page.sdcResults (fst dead) = None /\ Page.isLoading (fst dead) = false.
Proof. repeat split; vm_compute; reflexivity. Qed.

Section RoundTrip.
Context {World : Type}.
Variable fetch : World -> jsstring -> Request -> FetchOutcome * World.

(** X12. End to end: with a key, coordinates in [-180, 180) and a run that
    ends without error, if every chunk marked [OK] came back as it was
    encrypted then the rebuilt string is the encoded record followed by the
    one padding [0], the page shows the restricted flag that was sent, and
    the coordinates the page decodes from the rebuilt string are within 1e-5
    of the predicted ones. *)
Theorem run_round_trip (cfg : ErrorCorrectionConfig) (inp : Page.Inputs)
    (st : Page.PageState) (e : @Env World) (key : jsstring)
    (latitude longitude : Q) (flag : bool) :
  Page.storedQkdKey inp = Some key -> key <> [] ->
  Page.predictedLat inp = Some latitude -> Page.predictedLon inp = Some longitude ->
  Page.predictedRestricted inp = Some (yes_no flag) ->
  (-180 <= latitude < 180)%Q -> (-180 <= longitude < 180)%Q ->
  let st' := fst (Page.handleRunFullSimulation fetch cfg inp st e) in
  Page.error st' = None ->
  (forall sdc r, Page.sdcResults st' = Some sdc -> r ∈ transmissionResults sdc ->
                 status r = OK -> receivedChunk r = encryptedChunk r) ->
  Page.decryptedMessage st' = Page.combinedBinary st' ++ str "0" /\
  Page.decryptedRestricted st' = Some (yes_no flag) /\
  exists lat' lon',
    binaryToLatLon (Page.decryptedMessage st')
      = mkLatLon (Some (Fin lat')) (Some (Fin lon')) (Some (yes_no flag)) /\
    (Qabs (lat' - latitude) <= 1 # 100000)%Q /\
    (Qabs (lon' - longitude) <= 1 # 100000)%Q.
Proof.
  intros Hkey Hne Hlat Hlon Hflag Rlat Rlon st' Herr Hecho. subst st'.
  rewrite (handler_with_key fetch cfg inp st e key Hkey Hne) in *.
  cbn zeta in *. cbn [fst] in *. rewrite Hlat, Hlon, Hflag in *.
  destruct (combinedBin_decodes latitude longitude flag Rlat Rlon)
    as (Hbits & Hlen & lat' & lon' & Hdec & Hlat' & Hlon').
  set (combined := combinedBin (Some latitude) (Some longitude) (Some (yes_no flag))) in *.
  assert (Hcomb : combined <> []).
  { intros E. rewrite E in Hlen. discriminate. }
  destruct (transmit_outcome fetch cfg combined key (Page.p_error (Page.chshValue inp))
              1024 e Hcomb Hne) as [(data & Hres) | (message & Hres)];
    rewrite Hres in *; [|discriminate].
  cbn [Page.completed Page.decryptedMessage Page.combinedBinary Page.prepared
       Page.decryptedRestricted Page.sdcResults] in *.
  assert (Erec : reconstructBinaryData
                   (Some (build_results (split_chunks combined)
                            (encrypt_chunks (split_chunks combined) key) key data)) key
                 = combined ++ str "0").
  { rewrite (reconstruct_unchanged combined key data Hbits Hne).
    - rewrite Hlen. reflexivity.
    - intros r Hr Hs. exact (Hecho _ r eq_refl Hr Hs). }
  rewrite Erec. rewrite binaryToLatLon_app by lia. rewrite Hdec.
  split; [reflexivity|]. split; [reflexivity|].
  exists lat', lon'. repeat split; assumption.
Qed.

End RoundTrip.

Lemma run_round_trip_witness :
  Page.error (fst (Page.handleRunFullSimulation flaky_network config ready_inputs
                     Page.fresh (mkEnv 0%nat []))) = None /\
  Page.decryptedMessage (fst (Page.handleRunFullSimulation flaky_network config ready_inputs
                                Page.fresh (mkEnv 0%nat [])))
    = Page.combinedBinary (fst (Page.handleRunFullSimulation flaky_network config
                                  ready_inputs Page.fresh (mkEnv 0%nat []))) ++ str "0" /\
  Page.decryptedRestricted (fst (Page.handleRunFullSimulation flaky_network config
                                   ready_inputs Page.fresh (mkEnv 0%nat [])))
    = Some (yes_no true).
Proof.
  assert (H1 : Page.storedQkdKey ready_inputs = Some (str "101")) by reflexivity.
  assert (H2 : str "101" <> []) by discriminate.
  assert (H3 : Page.predictedLat ready_inputs = Some (12345 # 1000)%Q) by reflexivity.
  assert (H4 : Page.predictedLon ready_inputs = Some (- (7765432 # 100000))%Q) by reflexivity.
  assert (H5 : Page.predictedRestricted ready_inputs = Some (yes_no true)) by reflexivity.
  assert (H6 : (-180 <= 12345 # 1000 < 180)%Q) by (split; vm_compute; congruence).
  assert (H7 : (-180 <= - (7765432 # 100000) < 180)%Q) by (split; vm_compute; congruence).
  assert (H8 : Page.error (fst (Page.handleRunFullSimulation flaky_network config
                                  ready_inputs Page.fresh (mkEnv 0%nat []))) = None)
    by (vm_compute; reflexivity).
  assert (H9 : forall sdc r,
            Page.sdcResults (fst (Page.handleRunFullSimulation flaky_network config
                                    ready_inputs Page.fresh (mkEnv 0%nat []))) = Some sdc ->
            r ∈ transmissionResults sdc -> status r = OK ->
            receivedChunk r = encryptedChunk r).
  { intros sdc r Hsdc Hr. vm_compute in Hsdc. injection Hsdc as <-.
    cbn [transmissionResults] in Hr.
    repeat (apply elem_of_cons in Hr as [-> | Hr]; [intros _; reflexivity|]).
    now apply elem_of_nil in Hr. }
  pose proof (run_round_trip flaky_network config ready_inputs Page.fresh (mkEnv 0%nat [])
                (str "101") _ _ true H1 H2 H3 H4 H5 H6 H7 H8 H9) as (Ha & Hb & _).
  exact (conj H8 (conj Ha Hb)).
Defined.

(** ** The receiver's stream, further *)

Section ConsumerMore.
Context {Result : Type}.
Implicit Types (s : State Result) (e : Signal Result) (events : list (Signal Result)).

Lemma step_lifecycle s e : lifecycle s -> lifecycle (step s e).
Proof.
  intros Hs. pose proof Hs as (Hload & Hopen & Hres & Herr). unfold step.
  destruct (connected s) eqn:Hc; [|exact Hs].
  destruct (Hopen eq_refl) as [Hr He].
  destruct e as [|[total | id cur tot st msg | result | msg |]|];
    unfold lifecycle;
    cbn [handle_message with_logs loading connected decodedResult error progress];
    rewrite ?Hc, ?Hr, ?He; repeat split; try congruence; try assumption;
    intros; congruence.
Qed.

Lemma run_lifecycle events : forall s, lifecycle s -> lifecycle (run s events).
Proof.
  induction events as [|e events IH]; intros s Hs; [exact Hs|].
  apply IH, step_lifecycle, Hs.
Qed.

(** X13. In every state reached from the start of a fetch the page is
    loading exactly while the stream is open; while it is open there is
    neither a decoded result nor an error; a decoded result never comes with
    an error, and comes with the progress at 100. *)
Theorem stream_lifecycle events :
  let s := run (@initial Result) events in
  loading s = connected s /\
  (connected s = true -> decodedResult s = None /\ error s = None) /\
  (decodedResult s <> None -> error s = None /\ progress s = Fin 100) /\
  (error s <> None -> decodedResult s = None).
Proof.
  apply (run_lifecycle events initial).
  split; [reflexivity|]. split; [intros _; split; reflexivity|].
  split; intros Hsome; exfalso; apply Hsome; reflexivity.
Qed.

(** X14. An open stream is closed by a done event, an error event or a
    transport failure, and by nothing else; once closed, no later delivery
    changes the state.  An error event stores its message and adds one entry
    to the log; a transport failure stores the fixed message and leaves the
    log as it is; neither touches the decoded result. *)
Theorem stream_closing s e :
  connected s = true ->
  (connected (step s e) = false <-> is_terminal e) /\
  (connected (step s e) = false -> forall later, run (step s e) later = step s e) /\
  (forall msg, e = onmessage (error_event msg) ->
     error (step s e) = Some msg /\
     progressLogs (step s e)
       = progressLogs s ++ [mkLog None (str "error") (str "ERROR: " ++ msg)] /\
     decodedResult (step s e) = decodedResult s /\ progress (step s e) = progress s) /\
  (e = onerror ->
     error (step s e)
       = Some (str "Connection to the server failed. Make sure the backend is running.") /\
     progressLogs (step s e) = progressLogs s /\
     decodedResult (step s e) = decodedResult s /\ progress (step s e) = progress s).
Proof.
  intros Hc. split; [|split; [|split]].
  - unfold step. rewrite Hc.
    destruct e as [|[total | id cur tot st msg | result | msg |]|];
      cbn [handle_message with_logs connected is_terminal]; rewrite ?Hc;
      split; intros H; try exact I; try reflexivity; try discriminate; try contradiction.
  - intros Hclosed later. now apply run_closed.
  - intros msg ->. unfold step. rewrite Hc. repeat split.
  - intros ->. unfold step. rewrite Hc. repeat split.
Qed.

End ConsumerMore.

Lemma stream_closing_witness :
  connected (@initial nat) = true /\
  (connected (step (@initial nat) onerror) = false <-> is_terminal (@onerror nat)) /\
  error (step (@initial nat) onerror)
    = Some (str "Connection to the server failed. Make sure the backend is running.").
Proof.
  assert (H : connected (@initial nat) = true) by reflexivity.
  pose proof (stream_closing (@initial nat) onerror H) as (Ha & _ & _ & Hb).
  destruct (Hb eq_refl) as (Hc & _).
  exact (conj H (conj Ha Hc)).
Defined.

Section ConsumerJobs.
Context {Result : Type}.
Implicit Types (s : State Result) (e : Signal Result) (events : list (Signal Result)).

Lemma job_ids_upsert (id id' : jsstring) (entry : LogEntry) (prev : list LogEntry) :
  job_id entry = Some id ->
  (id' ∈ job_ids (upsert id entry prev) <-> id' = id \/ id' ∈ job_ids prev).
Proof.
  intros Hid. destruct (decide (id ∈ job_ids prev)) as [Hin | Hnot].
  - destruct (upsert_seen id entry prev Hin) as (i & old & Hi & Hold & ->).
    rewrite (job_ids_insert prev i old entry Hi) by congruence.
    split; [now right | intros [-> | H]; assumption].
  - rewrite (upsert_unseen id entry prev Hnot), job_ids_app, job_ids_cons, Hid.
    rewrite elem_of_app, list_elem_of_singleton. tauto.
Qed.

Lemma run_reported events :
  forall s id, connected s = true ->
  (id ∈ job_ids (progressLogs (run s events))
   <-> id ∈ job_ids (progressLogs s) \/ id ∈ reported events).
Proof.
  induction events as [|e events IH]; intros s id Hc.
  - cbn. rewrite elem_of_nil. tauto.
  - cbn [run foldl]. fold (run (step s e) events).
    assert (Hclosed : forall s', connected s' = false ->
              job_ids (progressLogs s') = job_ids (progressLogs s) ->
              reported (e :: events) = [] ->
              id ∈ job_ids (progressLogs (run s' events))
              <-> id ∈ job_ids (progressLogs s) \/ id ∈ reported (e :: events)).
    { intros s' Hs' Hids ->. rewrite (run_closed events s' Hs'), Hids, elem_of_nil. tauto. }
    assert (Hopen : forall s', connected s' = true ->
              job_ids (progressLogs s') = job_ids (progressLogs s) ->
              reported (e :: events) = reported events ->
              id ∈ job_ids (progressLogs (run s' events))
              <-> id ∈ job_ids (progressLogs s) \/ id ∈ reported (e :: events)).
    { intros s' Hs' Hids ->. now rewrite (IH s' id Hs'), Hids. }
    unfold step. rewrite Hc.
    destruct e as [|[total | id' cur tot st msg | result | msg |]|].
    + apply Hopen; [exact Hc | | reflexivity]. cbn [with_logs progressLogs]. unfold info.
      apply job_ids_snoc_info.
    + apply Hopen; [exact Hc | | reflexivity]. cbn [handle_message with_logs progressLogs].
      unfold info. apply job_ids_snoc_info.
    + cbn [handle_message reported]. rewrite IH by (cbn [connected]; exact Hc).
      cbn [progressLogs].
      rewrite (job_ids_upsert id' id (newLog id' cur tot st msg) _ eq_refl), elem_of_cons.
      tauto.
    + apply Hclosed; [reflexivity | | reflexivity]. cbn [handle_message progressLogs].
      apply job_ids_snoc_info.
    + apply Hclosed; [reflexivity | | reflexivity]. cbn [handle_message progressLogs].
      apply job_ids_snoc_info.
    + apply Hopen; [exact Hc | reflexivity | reflexivity].
    + apply Hclosed; reflexivity.
Qed.

(** X15. The jobs that have an entry in the log are exactly the jobs of the
    progress events delivered before the stream ended: no job is shown that
    was not reported, none that was reported is missing, and what arrives
    after the end shows nowhere. *)
Theorem jobs_shown_are_jobs_reported events (id : jsstring) :
  id ∈ job_ids (progressLogs (run (@initial Result) events)) <-> id ∈ reported events.
Proof.
  rewrite (run_reported events initial id eq_refl). cbn. rewrite elem_of_nil. tauto.
Qed.

(** X16. The progress a progress event sets is a percentage between 0 and
    100 when [0 <= current_job <= total_jobs] and [total_jobs] is positive,
    and exactly 100 for the last job; with [total_jobs = 0] it is not a
    finite number at all ([NaN] or an infinity). *)
Theorem progress_range s (id : jsstring) (current_job total_jobs : Z)
    (status : option jsstring) (msg : jsstring) :
  let p := progress (handle_message s
                       (progress_event id current_job total_jobs status msg)) in
  (0 < total_jobs -> 0 <= current_job <= total_jobs ->
     exists q, p = Fin q /\ (0 <= q <= 100)%Q /\ (current_job = total_jobs -> (q == 100)%Q)) /\
  (total_jobs = 0 -> p = NaN \/ p = PosInf \/ p = NegInf).
Proof.
  cbn zeta. cbn [handle_message progress]. unfold div. split.
  - intros Htot Hcur. destruct (Z.eqb_spec total_jobs 0) as [E | _]; [lia|].
    eexists. split; [reflexivity|].
    assert (Ht : (0 < inject_Z total_jobs)%Q).
    { change 0%Q with (inject_Z 0). now rewrite <- Zlt_Qlt. }
    assert (Hc0 : (0 <= inject_Z current_job)%Q).
    { change 0%Q with (inject_Z 0). rewrite <- Zle_Qle. lia. }
    assert (Hc1 : (inject_Z current_job <= inject_Z total_jobs)%Q).
    { rewrite <- Zle_Qle. lia. }
    change (inject_Z 100) with 100%Q.
    assert (H0 : (0 <= inject_Z current_job / inject_Z total_jobs)%Q).
    { apply Qle_shift_div_l; [exact Ht | lra]. }
    assert (H1 : (inject_Z current_job / inject_Z total_jobs <= 1)%Q).
    { apply Qle_shift_div_r; [exact Ht | lra]. }
    split; [split; lra|].
    intros ->. field. lra.
  - intros ->. cbn [Z.eqb].
    destruct (current_job =? 0); [now left|].
    destruct (0 <? current_job); cbn [scale]; tauto.
Qed.

Lemma step_rows s e (i : nat) (l : LogEntry) :
  progressLogs s !! i = Some l ->
  exists l', progressLogs (step s e) !! i = Some l' /\ job_id l' = job_id l /\
             (job_id l = None -> l' = l).
Proof.
  intros Hi.
  assert (Hsame : exists l', progressLogs s !! i = Some l' /\ job_id l' = job_id l /\
                             (job_id l = None -> l' = l)) by (exists l; tauto).
  assert (Hsnoc : forall x, exists l', (progressLogs s ++ [x]) !! i = Some l' /\
                            job_id l' = job_id l /\ (job_id l = None -> l' = l)).
  { intros x. exists l. rewrite lookup_app_l by (now apply lookup_lt_Some with l). tauto. }
  unfold step. destruct (connected s); [|exact Hsame].
  destruct e as [|[total | id cur tot st msg | result | msg |]|];
    cbn [handle_message with_logs progressLogs]; try apply Hsnoc; try exact Hsame.
  unfold upsert.
  destruct (list_find (same_job id) (progressLogs s)) as [[j old]|] eqn:E; [|apply Hsnoc].
  apply list_find_Some in E as (Hj & Hold & _).
  destruct (decide (j = i)) as [-> | Hne].
  - rewrite Hi in Hj. injection Hj as <-.
    exists (newLog id cur tot st msg).
    rewrite list_lookup_insert_eq by (now apply lookup_lt_Some with l).
    split; [reflexivity|]. split; [symmetry; exact Hold|].
    intros Hnone. unfold same_job in Hold. congruence.
  - rewrite list_lookup_insert_ne by exact Hne. exact Hsame.
Qed.

(** X17. Rows of the log never move and never go away: after any further
    deliveries the row at a position still belongs to the same job (or is
    still the same informational entry, unchanged), and the log is at least as
    long as before and at most one entry longer per delivery. *)
Theorem log_rows_stable events :
  forall s,
  (forall i l, progressLogs s !! i = Some l ->
     exists l', progressLogs (run s events) !! i = Some l' /\ job_id l' = job_id l /\
                (job_id l = None -> l' = l)) /\
  (length (progressLogs s) <= length (progressLogs (run s events))
   <= length (progressLogs s) + length events)%nat.
Proof.
  induction events as [|e events IH]; intros s.
  - split; [intros i l Hi; exists l; tauto | cbn; lia].
  - cbn [run foldl]. fold (run (step s e) events).
    destruct (IH (step s e)) as [Hrows Hlen]. split.
    + intros i l Hi. destruct (step_rows s e i l Hi) as (l1 & H1 & Hid1 & Hsame1).
      destruct (Hrows i l1 H1) as (l2 & H2 & Hid2 & Hsame2).
      exists l2. split; [exact H2|]. split; [congruence|].
      intros Hnone. rewrite Hsame2 by congruence. now apply Hsame1.
    + assert (Hstep : (length (progressLogs s) <= length (progressLogs (step s e))
                       <= S (length (progressLogs s)))%nat).
      { unfold step. destruct (connected s); [|lia].
        destruct e as [|[total | id cur tot st msg | result | msg |]|];
          cbn [handle_message with_logs progressLogs];
          rewrite ?length_app; cbn [length]; try lia.
        unfold upsert. destruct (list_find _ _) as [[j old]|];
          rewrite ?length_insert, ?length_app; cbn [length]; lia. }
      cbn [length]. lia.
Qed.

End ConsumerJobs.

Example reported_example :
  reported [onopen; onmessage (start 2);
            onmessage (progress_event (str "a") 1 2 None (str "x"));
            onmessage (progress_event (str "b") 2 2 None (str "y"));
            onmessage (progress_event (str "a") 2 2 None (str "z"));
            onmessage (done 7%nat);
            onmessage (progress_event (str "c") 1 2 None (str "late"))]
  = [str "a"; str "b"; str "a"].
Proof. reflexivity. Qed.

(** ** The IBM page *)

Import IbmCloud.

Lemma ToUint32_range (x : number) : 0 <= ToUint32 x < 2 ^ 32.
Proof.
  destruct x; cbn [ToUint32]; try (split; [reflexivity | reflexivity]).
  apply Z.mod_pos_bound. reflexivity.
Qed.

Lemma ToUint32_integer (z : Z) : ToUint32 (Fin (inject_Z z)) = z mod 2 ^ 32.
Proof.
  cbn [ToUint32 inject_Z Qnum]. f_equal.
  destruct (0 <=? z); [apply Qfloor_Z | apply Qceiling_Z].
Qed.

(** X18. [toBinary] returns exactly 32 bits for every input string: a
    negative or too large scaled value is wrapped into 32 bits instead of
    getting a sign or more digits, and an input that is not a number (or is
    infinite) gives 32 zeros.  For a finite number the bits are the binary
    numeral of the rounded scaled value modulo [2^32]. *)
Theorem toBinary_32_bits (num : jsstring) :
  bitstring (toBinary num 32) /\
  length (toBinary num 32) = 32%nat /\
  (parseFloat num = NaN \/ parseFloat num = PosInf \/ parseFloat num = NegInf ->
   toBinary num 32 = replicate 32 "0"%char) /\
  (forall v, parseFloat num = Fin v ->
   bin_value (toBinary num 32) = round (v * 100000) mod 2 ^ 32).
Proof.
  unfold toBinary.
  pose proof (ToUint32_range (round_number (scale (parseFloat num) 100000))) as Hr.
  split; [apply padStart_bitstring, toString2_bitstring; lia|].
  split; [apply padStart_length, toString2_short; [exact Hr | lia]|].
  split.
  - intros [-> | [-> | ->]]; reflexivity.
  - intros v ->. unfold padStart. rewrite bin_value_zeros.
    rewrite bin_value_toString2 by (apply ToUint32_range).
    cbn [scale round_number]. apply ToUint32_integer.
Qed.

Example toBinary_examples :
  toBinary (str "33.89729") 32 = str "00000000001100111011100100100001" /\
  toBinary (str "-0.00001") 32 = str "11111111111111111111111111111111" /\
  toBinary (str "abc") 32 = replicate 32 "0"%char /\
  toBinary (str "  7.5e1xyz") 32 = str "00000000011100100111000011100000" /\
  parseFloat (str ".5") = Fin ((5 # 1) * (1 # 10))%Q /\
  parseFloat (str ".") = NaN /\ parseFloat (str "-Infinity") = NegInf.
Proof. repeat split; vm_compute; reflexivity. Qed.

Lemma pieces_of_step (s : jsstring) :
  s <> [] -> pieces_of s = take 2 s :: pieces_of (drop 2 s).
Proof. destruct s as [|a [|b r]]; [congruence | reflexivity | reflexivity]. Qed.

Lemma split_loop_pieces_of (d : jsstring) (fuel : nat) :
  forall i acc, (length d <= i + 2 * fuel)%nat ->
  split_loop fuel d i acc = acc ++ pieces_of (drop i d).
Proof.
  induction fuel as [|fuel IH]; intros i acc Hlen; cbn [split_loop].
  - rewrite drop_ge by lia. now rewrite app_nil_r.
  - destruct (Nat.ltb_spec i (length d)) as [Hlt | Hge].
    + rewrite IH by lia. rewrite <- app_assoc. f_equal. cbn [app].
      rewrite (pieces_of_step (drop i d)).
      * unfold slice. replace (i + 2 - i)%nat with 2%nat by lia.
        now rewrite drop_drop.
      * intros Hnil. apply (f_equal length) in Hnil.
        rewrite length_drop in Hnil. cbn in Hnil. lia.
    + rewrite drop_ge by lia. now rewrite app_nil_r.
Qed.

Lemma pieces_of_bitstring (s : jsstring) :
  bitstring s -> Forall bitstring (pieces_of s).
Proof.
  induction s as [| a | a b r IH] using list_pair_ind; intros Hs; cbn [pieces_of].
  - constructor.
  - apply Forall_cons_2; [exact Hs | constructor].
  - apply Forall_cons in Hs as [Ha Hs]. apply Forall_cons in Hs as [Hb Hs].
    apply Forall_cons_2; [|exact (IH Hs)].
    apply Forall_cons_2; [exact Ha|]. apply Forall_cons_2; [exact Hb | constructor].
Qed.

Lemma splitIntoChunks_pieces_of (s : jsstring) : splitIntoChunks s = pieces_of s.
Proof. unfold splitIntoChunks. rewrite split_loop_pieces_of by lia. reflexivity. Qed.

(** X19. [splitIntoChunks] cuts a string into [ceil(len/2)] pieces of two
    characters, the last of one character when the length is odd, and adds
    nothing: joined, the pieces are the string.  The transmitter's chunks
    are these pieces with the short one padded by a [0]. *)
Theorem splitIntoChunks_coverage (binStr : jsstring) :
  concat (splitIntoChunks binStr) = binStr /\
  length (splitIntoChunks binStr) = ((length binStr + 1) / 2)%nat /\
  (forall i ch, splitIntoChunks binStr !! i = Some ch ->
     ch = slice (2 * i) (2 * i + 2) binStr /\
     length ch = (if (2 * i + 2 <=? length binStr)%nat then 2 else 1)%nat) /\
  split_chunks binStr = map (padEnd 2 "0") (splitIntoChunks binStr).
Proof.
  rewrite splitIntoChunks_pieces_of, split_chunks_chunks_of.
  induction binStr as [| a | a b r IH] using list_pair_ind.
  - split; [reflexivity|]. split; [reflexivity|]. split; [|reflexivity].
    intros i ch Hi. discriminate.
  - split; [reflexivity|]. split; [reflexivity|]. split; [|reflexivity].
    intros [|i] ch Hi; [|discriminate]. injection Hi as <-. split; reflexivity.
  - destruct IH as (Hcat & Hlen & Hat & Hpad). cbn [pieces_of chunks_of].
    split; [cbn [concat app]; now rewrite Hcat|].
    split; [|split].
    + cbn [length]. rewrite Hlen.
      replace (S (S (length r)) + 1)%nat with (length r + 1 + 1 * 2)%nat by lia.
      rewrite Nat.div_add by lia. lia.
    + intros [|i] ch Hi.
      * injection Hi as <-. split; reflexivity.
      * destruct (Hat i ch Hi) as [-> Hl]. split.
        -- unfold slice. replace (2 * S i)%nat with (S (S (2 * i))) by lia.
           replace (S (S (2 * i)) + 2 - S (S (2 * i)))%nat
             with (2 * i + 2 - 2 * i)%nat by lia.
           reflexivity.
        -- rewrite Hl. cbn [length].
           destruct (Nat.leb_spec (2 * i + 2) (length r)),
                    (Nat.leb_spec (2 * S i + 2) (S (S (length r)))); lia || reflexivity.
    + cbn [map]. rewrite <- Hpad. reflexivity.
Qed.

(** X20. Whatever the page holds as latitude, longitude and status, the
    chunk list [handleSend] shows has 33 chunks: 32 chunks of two bits that
    spell the two 32-bit numbers, and a last chunk of one bit, [1] exactly
    when the status is the string [1]. *)
Theorem handleSend_chunkList (latitude longitude restrictedStatus : jsstring) :
  let flag := if bool_decide (restrictedStatus = str "1") then "1"%char else "0"%char in
  length (chunkList latitude longitude restrictedStatus) = 33%nat /\
  concat (chunkList latitude longitude restrictedStatus)
    = toBinary latitude 32 ++ toBinary longitude 32 ++ [flag] /\
  take 32 (chunkList latitude longitude restrictedStatus)
    = splitIntoChunks (toBinary latitude 32 ++ toBinary longitude 32) /\
  chunkList latitude longitude restrictedStatus !! 32%nat = Some [flag] /\
  Forall bitstring (chunkList latitude longitude restrictedStatus).
Proof.
  cbn zeta. unfold chunkList.
  destruct (toBinary_32_bits latitude) as (Hb1 & Hl1 & _).
  destruct (toBinary_32_bits longitude) as (Hb2 & Hl2 & _).
  set (flag := if bool_decide (restrictedStatus = str "1") then "1"%char else "0"%char).
  assert (Eflag : (if bool_decide (restrictedStatus = str "1") then str "1" else str "0")
                  = [flag]) by (subst flag; now destruct (bool_decide _)).
  rewrite Eflag.
  destruct (toBinary latitude 32) as [|a0 [|a1 [|a2 [|a3 [|a4 [|a5 [|a6 [|a7 [|a8
    [|a9 [|a10 [|a11 [|a12 [|a13 [|a14 [|a15 [|a16 [|a17 [|a18 [|a19 [|a20 [|a21
    [|a22 [|a23 [|a24 [|a25 [|a26 [|a27 [|a28 [|a29 [|a30 [|a31 [|a32 la]]]]]]]]]]]]]]]]]]]]]]]]]]]]]]]]];
    try discriminate Hl1.
  destruct (toBinary longitude 32) as [|b0 [|b1 [|b2 [|b3 [|b4 [|b5 [|b6 [|b7 [|b8
    [|b9 [|b10 [|b11 [|b12 [|b13 [|b14 [|b15 [|b16 [|b17 [|b18 [|b19 [|b20 [|b21
    [|b22 [|b23 [|b24 [|b25 [|b26 [|b27 [|b28 [|b29 [|b30 [|b31 [|b32 lb]]]]]]]]]]]]]]]]]]]]]]]]]]]]]]]]];
    try discriminate Hl2.
  assert (Hflag : is_bit flag).
  { subst flag. destruct (bool_decide _); [right | left]; reflexivity. }
  rewrite !splitIntoChunks_pieces_of.
  repeat split; try reflexivity.
  apply pieces_of_bitstring.
  apply Forall_app_2; [exact Hb1|].
  apply Forall_app_2; [exact Hb2|].
  apply Forall_cons_2; [exact Hflag | constructor].
Qed.

(** ** Restricted airspace *)

Import Airspace.

Lemma crossing_loop_same_side (x y : Q) (side : bool) (rest : list (Q * Q)) :
  forall vj inside,
  Forall (fun v => gt (fst v) y = side) rest -> gt (fst vj) y = side ->
  crossing_loop x y rest vj inside = inside.
Proof.
  induction rest as [|vi rest IH]; intros vj inside Hrest Hvj; [reflexivity|].
  apply Forall_cons in Hrest as [Hvi Hrest]. cbn [crossing_loop].
  unfold intersect. cbn zeta. rewrite Hvi, Hvj.
  destruct side; cbn [eqb negb andb]; apply IH; assumption.
Qed.

Lemma pointInPolygon_same_side (point : Q * Q) (side : bool) (vs : list (Q * Q)) :
  Forall (fun v => gt (fst v) (fst point) = side) vs ->
  pointInPolygon point vs = false.
Proof.
  intros Hvs. unfold pointInPolygon. cbn zeta.
  destruct (last vs) as [vj|] eqn:Hlast; [|reflexivity].
  apply (crossing_loop_same_side _ _ side); [exact Hvs|].
  apply last_Some in Hlast as [vs' ->].
  apply Forall_app in Hvs as [_ Hvj]. now apply Forall_cons in Hvj as [Hvj _].
Qed.

(** X21. [pointInPolygon] never reports a point whose latitude is outside
    the latitudes of the polygon: at or above the latitude of every vertex,
    or below the latitude of every vertex, no edge is counted as crossed,
    whatever the longitudes.  For the two restricted areas of the page this
    gives: a position south of 33.5, at or north of 36.5, or from 35.05 up to
    below 35.5 degrees of latitude is never restricted. *)
Theorem outside_latitude_span :
  (forall point vs,
     Forall (fun v => fst v <= fst point)%Q vs \/ Forall (fun v => fst point < fst v)%Q vs ->
     pointInPolygon point vs = false) /\
  (forall lat lon : Q,
     (lat < 335 # 10)%Q \/ (365 # 10 <= lat)%Q \/ (3505 # 100 <= lat /\ lat < 355 # 10)%Q ->
     isRestricted (lat, lon) = false).
Proof.
  assert (Hle : forall a y : Q, (a <= y)%Q -> gt a y = false).
  { intros a y H. unfold gt. apply (proj2 (Qle_bool_iff a y)) in H. now rewrite H. }
  assert (Hlt : forall a y : Q, (y < a)%Q -> gt a y = true).
  { intros a y H. unfold gt. destruct (Qle_bool a y) eqn:E; [|reflexivity].
    apply Qle_bool_iff in E. exfalso. apply (Qlt_not_le _ _ H E). }
  assert (Hspan : forall point vs,
    Forall (fun v => fst v <= fst point)%Q vs \/ Forall (fun v => fst point < fst v)%Q vs ->
    pointInPolygon point vs = false).
  { intros point vs [H | H].
    - apply (pointInPolygon_same_side point false).
      eapply Forall_impl; [exact H|]. intros v Hv. now apply Hle.
    - apply (pointInPolygon_same_side point true).
      eapply Forall_impl; [exact H|]. intros v Hv. now apply Hlt. }
  split; [exact Hspan|].
  intros lat lon Hlat. unfold isRestricted, restrictedAreas. cbn [existsb].
  rewrite !Hspan; [reflexivity| |].
  - destruct Hlat as [H | [H | [H1 H2]]].
    + right. repeat (apply Forall_cons_2; [cbn [fst]; lra|]). constructor.
    + left. repeat (apply Forall_cons_2; [cbn [fst]; lra|]). constructor.
    + right. repeat (apply Forall_cons_2; [cbn [fst]; lra|]). constructor.
  - destruct Hlat as [H | [H | [H1 H2]]].
    + right. repeat (apply Forall_cons_2; [cbn [fst]; lra|]). constructor.
    + left. repeat (apply Forall_cons_2; [cbn [fst]; lra|]). constructor.
    + left. repeat (apply Forall_cons_2; [cbn [fst]; lra|]). constructor.
Qed.

Example isRestricted_examples :
  isRestricted (344 # 10, 744 # 10)%Q = true /\
  isRestricted (36 # 1, 788 # 10)%Q = true /\
  isRestricted (344 # 10, 70 # 1)%Q = false /\
  isRestricted (344 # 10, 80 # 1)%Q = false /\
  pointInPolygon (1 # 1, 1 # 1)%Q [] = false.
Proof. repeat split; vm_compute; reflexivity. Qed.

(** ** The comparison pages *)

Lemma all_bits_bitstring (s : jsstring) :
  Compare.all_bits s = true <-> s <> [] /\ bitstring s.
Proof.
  destruct s as [|c s]; [split; [discriminate | intros [H _]; congruence]|].
  change (Compare.all_bits (c :: s))
    with (forallb (fun c => bool_decide (c = "0"%char \/ c = "1"%char)) (c :: s)).
  rewrite <- Is_true_true, forallb_True. split.
  - intros H. split; [discriminate|].
    eapply Forall_impl; [exact H|]. intros a Ha.
    apply Is_true_true in Ha. now apply bool_decide_eq_true in Ha.
  - intros [_ H]. eapply Forall_impl; [exact H|]. intros a Ha.
    apply Is_true_true. now apply bool_decide_eq_true.
Qed.

Lemma rejected_None (eb : option jsstring) :
  Compare.rejected eb = None <-> exists s, eb = Some s /\ s <> [] /\ bitstring s.
Proof.
  destruct eb as [[|c s]|]; cbn [Compare.rejected].
  - split; [discriminate | intros (s & [= <-] & H & _); congruence].
  - destruct (Compare.all_bits (c :: s)) eqn:E.
    + split; [|reflexivity]. intros _. exists (c :: s).
      split; [reflexivity|]. now apply all_bits_bitstring.
    + split; [discriminate|]. intros (s' & [= <-] & H).
      apply all_bits_bitstring in H. congruence.
  - split; [discriminate | intros (s & [=] & _)].
Qed.

Lemma char_at_bit (key : jsstring) (z : Z) (c : ascii) :
  bitstring key -> is_bit c -> is_bit (pad_char c (char_at key z)).
Proof.
  intros Hkey Hc. unfold char_at. destruct (z <? 0).
  - destruct Hc as [-> | ->]; vm_compute; auto.
  - destruct (key !! Z.to_nat z) as [k|] eqn:Hk.
    + assert (Hb : is_bit k) by (eapply Forall_lookup_1; eassumption).
      destruct Hc as [-> | ->], Hb as [-> | ->]; vm_compute; auto.
    + destruct Hc as [-> | ->]; vm_compute; auto.
Qed.

Lemma pad_from_bitstring (key : jsstring) (off : Z) (cs : jsstring) :
  bitstring key -> bitstring cs -> forall i, bitstring (pad_from key off i cs).
Proof.
  intros Hkey. induction 1 as [|c cs Hc _ IH]; intros i; [constructor|].
  rewrite pad_from_bits by assumption.
  apply Forall_cons_2; [now apply char_at_bit | apply IH].
Qed.

Lemma oneTimePadEncrypt_bitstring (chunk key : jsstring) (off : Z) :
  bitstring key -> bitstring chunk ->
  bitstring (oneTimePadEncrypt chunk key off) /\
  length (oneTimePadEncrypt chunk key off) = length chunk.
Proof.
  intros Hkey Hch. unfold oneTimePadEncrypt.
  destruct key as [|k key], chunk as [|c chunk]; try (split; [assumption | reflexivity]).
  split; [now apply pad_from_bitstring | now apply pad_from_length].
Qed.

Lemma encrypted_chunk_shape (d key : jsstring) (i : nat) (e : jsstring) :
  bitstring d -> bitstring key ->
  encrypt_chunks (split_chunks d) key !! i = Some e ->
  bitstring e /\ length e = 2%nat.
Proof.
  intros Hd Hkey He. unfold encrypt_chunks in He.
  rewrite list_lookup_imap in He.
  destruct (split_chunks d !! i) as [ch|] eqn:Hch; [|discriminate].
  injection He as <-.
  rewrite split_chunks_chunks_of in Hch.
  assert (Hb : bitstring ch).
  { eapply Forall_lookup_1; [apply chunks_of_bitstring; exact Hd | exact Hch]. }
  assert (Hl : length ch = 2%nat).
  { exact (Forall_lookup_1 _ _ _ _ (chunks_of_lengths d) Hch). }
  destruct (oneTimePadEncrypt_bitstring ch key (key_offset i key) Hkey Hb) as [H1 H2].
  split; [exact H1 | congruence].
Qed.

Lemma concat_bitstring (cs : list jsstring) :
  Forall bitstring cs -> bitstring (concat cs).
Proof.
  induction 1 as [|c cs Hc _ IH]; [constructor|].
  cbn [concat]. now apply Forall_app_2.
Qed.

Lemma match_pairs_concat (cs : list jsstring) :
  Forall (fun c => length c = 2%nat /\
                   Forall (fun a => Compare.is_line_terminator a = false) c) cs ->
  Compare.match_pairs (concat cs) = cs.
Proof.
  induction 1 as [|c cs [Hl Ht] _ IH]; [reflexivity|].
  destruct c as [|a [|b [|x c]]]; try discriminate Hl.
  apply Forall_cons in Ht as [Ha Ht]. apply Forall_cons in Ht as [Hb _].
  cbn [concat app Compare.match_pairs]. rewrite Ha, Hb, IH. reflexivity.
Qed.

Lemma bit_not_terminator (a : ascii) : is_bit a -> Compare.is_line_terminator a = false.
Proof. intros [-> | ->]; reflexivity. Qed.

(** The received chunks of a run over bits with a key of bits, when every
    corrected message of the backend is two bits. *)
Lemma received_chunk_shape (d key : jsstring) (data : ResponseData) (r : TransmissionResult) :
  bitstring d -> bitstring key ->
  (forall i item m, default [] (corrected_messages data) !! i = Some (Some item) ->
     corrected_message item = Some m -> bitstring m /\ length m = 2%nat) ->
  r ∈ transmissionResults
        (build_results (split_chunks d) (encrypt_chunks (split_chunks d) key) key data) ->
  bitstring (receivedChunk r) /\ length (receivedChunk r) = 2%nat.
Proof.
  intros Hd Hkey Hback Hr. cbn [build_results transmissionResults] in Hr.
  apply list_elem_of_lookup in Hr as [i Hi].
  rewrite list_lookup_imap in Hi.
  destruct (encrypt_chunks (split_chunks d) key !! i) as [e|] eqn:He; [|discriminate].
  injection Hi as <-. cbn [transmission_result receivedChunk].
  destruct (default [] (corrected_messages data) !! i) as [[item|]|] eqn:Hitem;
    cbn [corrected_message default];
    try exact (encrypted_chunk_shape d key i e Hd Hkey He).
  destruct (corrected_message item) as [m|] eqn:Hm; cbn [default].
  - exact (Hback i item m Hitem Hm).
  - exact (encrypted_chunk_shape d key i e Hd Hkey He).
Qed.

(** X22. The guard of [fetchComparison] lets a cipher text through exactly
    when it is a non-empty string of the characters [0] and [1]; the text of
    the navigation state is the one checked unless it is missing or empty,
    and only then the stored one.  A text that is missing, empty or has any
    other character gives the error and no request. *)
Theorem comparison_guard (state stored : option jsstring) :
  (Compare.rejected (Compare.encryptedBinary state stored) = None <->
   exists s, s <> [] /\ bitstring s /\
     (state = Some s \/ ((state = None \/ state = Some []) /\ stored = Some s))) /\
  (Compare.rejected (Compare.encryptedBinary state stored) <> None ->
   Compare.rejected (Compare.encryptedBinary state stored)
   = Some (str "Invalid encrypted binary received for comparison")).
Proof.
  split.
  - rewrite rejected_None. split.
    + intros (s & Hs & Hne & Hb). exists s. split; [exact Hne|]. split; [exact Hb|].
      destruct state as [[|c t]|]; cbn [Compare.encryptedBinary] in Hs.
      * right. split; [right; reflexivity | exact Hs].
      * left. exact Hs.
      * right. split; [left; reflexivity | exact Hs].
    + intros (s & Hne & Hb & [-> | [[-> | ->] ->]]); exists s;
        (split; [|split; assumption]); try reflexivity.
      destruct s; [congruence | reflexivity].
  - destruct (Compare.encryptedBinary state stored) as [[|c s]|];
      cbn [Compare.rejected]; try reflexivity.
    destruct (Compare.all_bits (c :: s)); [congruence | reflexivity].
Qed.

Example comparison_guard_examples :
  Compare.rejected (Compare.encryptedBinary None (Some (str "0110"))) = None /\
  Compare.rejected (Compare.encryptedBinary (Some (str "01a0")) (Some (str "0110"))) <> None /\
  Compare.rejected (Compare.encryptedBinary (Some []) None) <> None /\
  Compare.rejected (Some (str "0110" ++ [ascii_of_nat 10])) <> None /\
  Compare.rejected
    (Some (concat (encrypt_chunks (split_chunks (str "0110")) (str "7")))) <> None.
Proof. repeat split; vm_compute; congruence. Qed.

(** X23. After a run over a non-empty record of bits with a key of bits,
    where every corrected message of the backend is two bits (or is left
    out), the cipher text the run stores passes the guard of the comparison
    page that reads it from storage. *)
Theorem stored_cipher_text_accepted (d key : jsstring) (data : ResponseData)
    (inp : Page.Inputs) (st : Page.PageState) :
  bitstring d -> d <> [] -> bitstring key ->
  (forall i item m, default [] (corrected_messages data) !! i = Some (Some item) ->
     corrected_message item = Some m -> bitstring m /\ length m = 2%nat) ->
  let sdcRes :=
    build_results (split_chunks d) (encrypt_chunks (split_chunks d) key) key data in
  Compare.rejected
    (Compare.encryptedBinary None
       (Page.storedEncryptedBinary (Page.completed inp st key sdcRes))) = None.
Proof.
  intros Hd Hne Hkey Hback sdcRes.
  cbn [Page.completed Page.storedEncryptedBinary Compare.encryptedBinary].
  apply rejected_None. eexists. split; [reflexivity|].
  assert (Hall : Forall (fun c => bitstring c /\ length c = 2%nat)
                   (map receivedChunk (transmissionResults sdcRes))).
  { apply Forall_fmap, Forall_forall. intros r Hr.
    exact (received_chunk_shape d key data r Hd Hkey Hback Hr). }
  split.
  - assert (Hlen : length (map receivedChunk (transmissionResults sdcRes))
                   = length (chunks_of d)).
    { subst sdcRes. cbn [build_results transmissionResults].
      rewrite length_map, length_imap. unfold encrypt_chunks.
      now rewrite length_imap, split_chunks_chunks_of. }
    destruct (map receivedChunk (transmissionResults sdcRes)) as [|c cs].
    + rewrite chunks_of_count in Hlen. destruct d as [|a d]; [congruence|].
      cbn [length] in Hlen. exfalso.
      assert (1 <= (S (length d) + 1) / 2)%nat
        by (apply Nat.div_le_lower_bound; lia).
      lia.
    + apply Forall_cons in Hall as [[_ Hc] _].
      destruct c; [discriminate Hc | discriminate].
  - apply concat_bitstring. eapply Forall_impl; [exact Hall|]. now intros c [Hc _].
Qed.

Lemma stored_cipher_text_accepted_witness :
  Compare.rejected
    (Compare.encryptedBinary None
       (Page.storedEncryptedBinary
          (Page.completed keyless_inputs Page.fresh (str "101")
             (build_results (split_chunks (str "01101"))
                (encrypt_chunks (split_chunks (str "01101")) (str "101")) (str "101")
                (mkData None None None None None))))) = None.
Proof.
  apply (stored_cipher_text_accepted (str "01101") (str "101")
           (mkData None None None None None) keyless_inputs Page.fresh).
  - repeat (apply Forall_cons_2; [(left; reflexivity) || (right; reflexivity)|]).
    constructor.
  - discriminate.
  - repeat (apply Forall_cons_2; [(left; reflexivity) || (right; reflexivity)|]).
    constructor.
  - intros i item m Hi. destruct i; discriminate Hi.
Defined.

(** X24. The chunks [ComparisonNew] sends are the received chunks of the
    run that stored the cipher text, at most the first 33 of them: cutting
    the joined text two characters at a time gives the chunks back, for a
    record of bits, a key of bits and corrected messages of two bits.  When
    the backend sent no corrected messages and the record has at most 66
    bits, they are the chunks the run itself sent. *)
Theorem comparison_resends_chunks (d key : jsstring) (data : ResponseData)
    (inp : Page.Inputs) (st : Page.PageState) :
  bitstring d -> bitstring key ->
  (forall i item m, default [] (corrected_messages data) !! i = Some (Some item) ->
     corrected_message item = Some m -> bitstring m /\ length m = 2%nat) ->
  let sdcRes :=
    build_results (split_chunks d) (encrypt_chunks (split_chunks d) key) key data in
  let sent :=
    Compare.bits (Compare.encryptedBinary None
      (Page.storedEncryptedBinary (Page.completed inp st key sdcRes))) in
  sent = take 33 (map receivedChunk (transmissionResults sdcRes)) /\
  (corrected_messages data = None -> (length d <= 66)%nat ->
   sent = encrypt_chunks (split_chunks d) key).
Proof.
  intros Hd Hkey Hback sdcRes sent.
  assert (Hall : Forall (fun c => length c = 2%nat /\
                                  Forall (fun a => Compare.is_line_terminator a = false) c)
                   (map receivedChunk (transmissionResults sdcRes))).
  { apply Forall_fmap, Forall_forall. intros r Hr.
    destruct (received_chunk_shape d key data r Hd Hkey Hback Hr) as [Hb Hl].
    split; [exact Hl|]. eapply Forall_impl; [exact Hb|]. apply bit_not_terminator. }
  assert (Hsent : sent = take 33 (map receivedChunk (transmissionResults sdcRes))).
  { subst sent.
    cbn [Page.completed Page.storedEncryptedBinary Compare.encryptedBinary Compare.bits].
    now rewrite match_pairs_concat. }
  split; [exact Hsent|].
  intros Hnone Hlen. rewrite Hsent. subst sdcRes.
  cbn [build_results transmissionResults]. rewrite Hnone. cbn [default].
  assert (Hrecv : forall l : list jsstring,
    map receivedChunk (imap (transmission_result (split_chunks d) key []) l) = l).
  { intros l. apply list_eq. intros i.
    rewrite list_lookup_fmap, list_lookup_imap.
    destruct (l !! i); reflexivity. }
  rewrite Hrecv. apply take_ge.
  unfold encrypt_chunks. rewrite length_imap, split_chunks_chunks_of, chunks_of_count.
  apply Nat.lt_succ_r, Nat.Div0.div_lt_upper_bound. lia.
Qed.

Lemma comparison_resends_chunks_witness :
  let sdcRes :=
    build_results (split_chunks (str "01101"))
      (encrypt_chunks (split_chunks (str "01101")) (str "101")) (str "101")
      (mkData None None None None None) in
  let sent :=
    Compare.bits (Compare.encryptedBinary None
      (Page.storedEncryptedBinary (Page.completed keyless_inputs Page.fresh (str "101") sdcRes))) in
  sent = take 33 (map receivedChunk (transmissionResults sdcRes)) /\
  (corrected_messages (mkData None None None None None) = None ->
   (length (str "01101") <= 66)%nat ->
   sent = encrypt_chunks (split_chunks (str "01101")) (str "101")).
Proof.
  apply (comparison_resends_chunks (str "01101") (str "101")
           (mkData None None None None None) keyless_inputs Page.fresh).
  - repeat (apply Forall_cons_2; [(left; reflexivity) || (right; reflexivity)|]).
    constructor.
  - repeat (apply Forall_cons_2; [(left; reflexivity) || (right; reflexivity)|]).
    constructor.
  - intros i item m Hi. destruct i; discriminate Hi.
Defined.

(** ** From page to page *)

Import Handover.

Lemma toFixed5_close (a b : Q) :
  toFixed5 a = toFixed5 b -> (Qabs (a - b) < 1 # 100000)%Q.
Proof.
  intros E.
  assert (Hsign : negb (Qle_bool 0 a) = negb (Qle_bool 0 b))
    by exact (f_equal fst E).
  assert (Hfloor : Qfloor (Qabs a * 100000 + (1 # 2)) = Qfloor (Qabs b * 100000 + (1 # 2)))
    by exact (f_equal snd E).
  clear E.
  pose proof (Qfloor_le (Qabs a * 100000 + (1 # 2))) as Ha1.
  pose proof (Qlt_floor (Qabs a * 100000 + (1 # 2))) as Ha2.
  pose proof (Qfloor_le (Qabs b * 100000 + (1 # 2))) as Hb1.
  pose proof (Qlt_floor (Qabs b * 100000 + (1 # 2))) as Hb2.
  rewrite Hfloor in Ha1, Ha2. rewrite inject_Z_plus in Ha2, Hb2.
  change (inject_Z 1) with 1%Q in Ha2, Hb2.
  set (n := inject_Z (Qfloor (Qabs b * 100000 + (1 # 2)))) in *.
  destruct (Qle_bool 0 a) eqn:Ea, (Qle_bool 0 b) eqn:Eb; try discriminate Hsign.
  - apply Qle_bool_iff in Ea, Eb.
    rewrite (Qabs_pos a Ea) in Ha1, Ha2. rewrite (Qabs_pos b Eb) in Hb1, Hb2.
    apply Qabs_case; intros _; lra.
  - assert (Ha : (a <= 0)%Q).
    { destruct (Qlt_le_dec 0 a) as [H | H]; [|exact H].
      apply Qlt_le_weak, Qle_bool_iff in H. congruence. }
    assert (Hb : (b <= 0)%Q).
    { destruct (Qlt_le_dec 0 b) as [H | H]; [|exact H].
      apply Qlt_le_weak, Qle_bool_iff in H. congruence. }
    rewrite (Qabs_neg a Ha) in Ha1, Ha2. rewrite (Qabs_neg b Hb) in Hb1, Hb2.
    apply Qabs_case; intros _; lra.
Qed.

Lemma toFixed5_equal (a b : Q) : (a == b)%Q -> toFixed5 a = toFixed5 b.
Proof.
  intros E. unfold toFixed5. f_equal.
  - f_equal. destruct (Qle_bool 0 a) eqn:Ea, (Qle_bool 0 b) eqn:Eb; try reflexivity.
    + apply Qle_bool_iff in Ea. rewrite E in Ea. apply Qle_bool_iff in Ea. congruence.
    + apply Qle_bool_iff in Eb. rewrite <- E in Eb. apply Qle_bool_iff in Eb. congruence.
  - apply Qfloor_comp. now rewrite E.
Qed.

Lemma last_predicted_last (path : list PathPoint) (q : PathPoint) (latitude longitude : Q) :
  last path = Some q ->
  last_predicted path latitude longitude
  = if same_toFixed5 (lat q) latitude && same_toFixed5 (lon q) longitude
    then None else Some (mark q).
Proof.
  intros Hq. unfold last_predicted. cbn zeta.
  change (map mark path) with (mark <$> path). rewrite fmap_last, Hq. reflexivity.
Qed.

(** X25. The end point [fetchTrajectory] keeps is the last point of the
    predicted path with the flag [isRestricted] gives it, and nothing else:
    it is kept when it is at least 1e-5 away from the flight's position in
    latitude or in longitude, and dropped when it is at that position. *)
Theorem end_point_kept_or_dropped (path : list PathPoint) (q : PathPoint)
    (latitude longitude : Q) :
  last path = Some q ->
  ((1 # 100000 <= Qabs (lat q - latitude) \/ 1 # 100000 <= Qabs (lon q - longitude))%Q ->
   last_predicted path latitude longitude = Some (mark q)) /\
  ((lat q == latitude)%Q -> (lon q == longitude)%Q ->
   last_predicted path latitude longitude = None) /\
  (forall p, last_predicted path latitude longitude = Some p ->
     point p = q /\
     Handover.restricted p = yes_no (isRestricted (lat q, lon q))).
Proof.
  intros Hq. rewrite (last_predicted_last path q latitude longitude Hq).
  unfold same_toFixed5. split; [|split].
  - intros Hfar.
    destruct (bool_decide (toFixed5 (lat q) = toFixed5 latitude)) eqn:E1; [|reflexivity].
    destruct (bool_decide (toFixed5 (lon q) = toFixed5 longitude)) eqn:E2; [|reflexivity].
    apply bool_decide_eq_true in E1, E2.
    apply toFixed5_close in E1, E2. exfalso. destruct Hfar as [H | H]; lra.
  - intros E1 E2.
    rewrite (bool_decide_eq_true_2 _ (toFixed5_equal _ _ E1)).
    rewrite (bool_decide_eq_true_2 _ (toFixed5_equal _ _ E2)). reflexivity.
  - intros p Hp.
    destruct (bool_decide _ && bool_decide _); [discriminate|].
    injection Hp as <-. split; reflexivity.
Qed.

Lemma end_point_kept_or_dropped_witness :
  let q := mkPoint (344 # 10) (744 # 10) in
  ((1 # 100000 <= Qabs (lat q - (34 # 1)) \/ 1 # 100000 <= Qabs (lon q - (74 # 1)))%Q ->
   last_predicted [mkPoint (34 # 1) (74 # 1); q] (34 # 1) (74 # 1) = Some (mark q)) /\
  ((lat q == 34 # 1)%Q -> (lon q == 74 # 1)%Q ->
   last_predicted [mkPoint (34 # 1) (74 # 1); q] (34 # 1) (74 # 1) = None) /\
  (forall p, last_predicted [mkPoint (34 # 1) (74 # 1); q] (34 # 1) (74 # 1) = Some p ->
     point p = q /\
     Handover.restricted p = yes_no (isRestricted (lat q, lon q))).
Proof.
  apply (end_point_kept_or_dropped
           [mkPoint (34 # 1) (74 # 1); mkPoint (344 # 10) (744 # 10)]
           (mkPoint (344 # 10) (744 # 10)) (34 # 1) (74 # 1)).
  reflexivity.
Defined.

Example last_predicted_examples :
  last_predicted [] (34 # 1) (74 # 1) = None /\
  last_predicted [mkPoint (344 # 10) (744 # 10)] (34 # 1) (74 # 1)
    = Some (mkMarked (mkPoint (344 # 10) (744 # 10)) (str "Yes")) /\
  last_predicted [mkPoint (3400000449 # 100000000) (74 # 1)] (34 # 1) (74 # 1) = None /\
  last_predicted [mkPoint (3400000500 # 100000000) (74 # 1)] (34 # 1) (74 # 1)
    = Some (mkMarked (mkPoint (3400000500 # 100000000) (74 # 1)) (str "Yes")) /\
  toFixed5 (- (1 # 1000000)) <> toFixed5 (1 # 1000000).
Proof. repeat split; vm_compute; congruence. Qed.

(** X26. The flag the aircraft page gives the end point reaches the
    decoder: with the end point in the navigation state, its coordinates in
    [-180, 180), the record the simulation page encodes has 65 bits, and
    decoding it gives [Yes] exactly when the end point is inside a
    restricted area, with coordinates within 1e-5 of the end point's. *)
Theorem restricted_flag_end_to_end (store : Storage) (path : list PathPoint)
    (latitude longitude : Q) (p : Marked) :
  last_predicted path latitude longitude = Some p ->
  (-180 <= lat (point p) < 180)%Q -> (-180 <= lon (point p) < 180)%Q ->
  let inp := inputs store (full_simulation_state (Some p)) in
  let encoded := combinedBin (Page.predictedLat inp) (Page.predictedLon inp)
                   (Page.predictedRestricted inp) in
  let flag := isRestricted (lat (point p), lon (point p)) in
  length encoded = 65%nat /\
  encoded !! 64%nat = Some (if flag then "1"%char else "0"%char) /\
  exists lat' lon',
    binaryToLatLon encoded
      = mkLatLon (Some (Fin lat')) (Some (Fin lon')) (Some (yes_no flag)) /\
    (Qabs (lat' - lat (point p)) <= 1 # 100000)%Q /\
    (Qabs (lon' - lon (point p)) <= 1 # 100000)%Q.
Proof.
  intros Hp Hlat Hlon. cbn zeta.
  assert (Hmark : p = mark (point p)).
  { unfold last_predicted in Hp. cbn zeta in Hp.
    change (map mark path) with (mark <$> path) in Hp. rewrite fmap_last in Hp.
    destruct (last path) as [q|]; [|discriminate]. cbn [fmap option_fmap option_map] in Hp.
    destruct (_ && _); [discriminate|]. injection Hp as <-. reflexivity. }
  cbn [inputs full_simulation_state load_predicted option_map Page.predictedLat
       Page.predictedLon Page.predictedRestricted].
  assert (Hflag : Handover.restricted p
                  = yes_no (isRestricted (lat (point p), lon (point p)))).
  { rewrite Hmark at 1. reflexivity. }
  rewrite Hflag.
  destruct (combinedBin_decodes (lat (point p)) (lon (point p))
              (isRestricted (lat (point p), lon (point p))) Hlat Hlon)
    as (Hbits & Hlen & Hdec).
  split; [exact Hlen|]. split; [|exact Hdec].
  destruct (floatToBinary_in_range (lat (point p)) Hlat) as (_ & Hl1 & _).
  destruct (floatToBinary_in_range (lon (point p)) Hlon) as (_ & Hl2 & _).
  unfold combinedBin. cbn zeta.
  rewrite lookup_app_r by (rewrite Hl1; lia).
  rewrite lookup_app_r by (rewrite Hl1, Hl2; lia).
  rewrite Hl1, Hl2.
  destruct (isRestricted _); reflexivity.
Qed.

Lemma restricted_flag_end_to_end_witness :
  let p := mkMarked (mkPoint (344 # 10) (744 # 10)) (str "Yes") in
  let inp := inputs ∅ (full_simulation_state (Some p)) in
  let encoded := combinedBin (Page.predictedLat inp) (Page.predictedLon inp)
                   (Page.predictedRestricted inp) in
  let flag := isRestricted (lat (point p), lon (point p)) in
  length encoded = 65%nat /\
  encoded !! 64%nat = Some (if flag then "1"%char else "0"%char) /\
  exists lat' lon',
    binaryToLatLon encoded
      = mkLatLon (Some (Fin lat')) (Some (Fin lon')) (Some (yes_no flag)) /\
    (Qabs (lat' - lat (point p)) <= 1 # 100000)%Q /\
    (Qabs (lon' - lon (point p)) <= 1 # 100000)%Q.
Proof.
  apply (restricted_flag_end_to_end ∅ [mkPoint (344 # 10) (744 # 10)] (34 # 1) (74 # 1)
           (mkMarked (mkPoint (344 # 10) (744 # 10)) (str "Yes"))).
  - vm_compute. reflexivity.
  - cbn [point lat]. lra.
  - cbn [point lon]. lra.
Defined.

Lemma loadQKDKey_spec (store : Storage) :
  match getItem store (str "qkdKey") with
  | Some (c :: s) => loadQKDKey store = Some (c :: s) /\ mounted_error (mount store) = None
  | _ => loadQKDKey store = None /\
         mounted_error (mount store)
         = Some (str "No QKD key found. Please generate a key first.")
  end.
Proof.
  unfold mount, loadQKDKey. cbn [mounted_error].
  destruct (getItem store (str "qkdKey")) as [[|c s]|]; split; reflexivity.
Qed.

Section MountAndRun.
Context {World : Type}.
Variable fetch : World -> jsstring -> Request -> FetchOutcome * World.

(** X27. The page warns on mount exactly when a run would be refused: the
    effect on mount sets its error, that no key was found, if and only if
    [handleRunFullSimulation] over the same storage ends with the error that
    no key is available; both happen exactly when the stored key is missing
    or empty. *)
Theorem mount_warns_iff_run_refused (cfg : ErrorCorrectionConfig) (store : Storage)
    (state : option Predicted) (st : Page.PageState) (e : @Env World) :
  let run := Page.handleRunFullSimulation fetch cfg (inputs store state) st e in
  let refused :=
    Some (str "No QKD key available. Please generate a key first from QKD Simulation.") in
  (loadQKDKey store = None <->
   mounted_error (mount store)
   = Some (str "No QKD key found. Please generate a key first.")) /\
  (loadQKDKey store <> None <-> mounted_error (mount store) = None) /\
  (loadQKDKey store = None <-> Page.error (fst run) = refused).
Proof.
  cbn zeta. pose proof (loadQKDKey_spec store) as Hspec.
  destruct (getItem store (str "qkdKey")) as [[|c s]|] eqn:Hkey;
    destruct Hspec as [Hload Herr]; rewrite Hload, Herr.
  - split; [tauto|]. split; [split; [congruence | discriminate]|].
    split; [|reflexivity]. intros _.
    unfold Page.handleRunFullSimulation. cbn [inputs Page.storedQkdKey].
    rewrite Hkey. reflexivity.
  - split; [split; discriminate|]. split; [split; [reflexivity | discriminate]|].
    split; [discriminate|]. intros Hrun. exfalso.
    rewrite (handler_with_key fetch cfg (inputs store state) st e (c :: s)) in Hrun
      by first [exact Hkey | discriminate].
    cbn zeta in Hrun. cbn [fst] in Hrun.
    destruct (fst (processSuperdenseCoding fetch cfg _ _ _ _ e)) as [[sdc|]|m];
      cbn in Hrun; discriminate Hrun.
  - split; [tauto|]. split; [split; [congruence | discriminate]|].
    split; [|reflexivity]. intros _.
    unfold Page.handleRunFullSimulation. cbn [inputs Page.storedQkdKey].
    rewrite Hkey. reflexivity.
Qed.

End MountAndRun.

Lemma getItem_setItem_eq (store : Storage) (item value : jsstring) :
  getItem (setItem item value store) item = Some value.
Proof. unfold getItem, setItem, Storage. apply lookup_insert_eq. Qed.

Lemma getItem_setItem_ne (store : Storage) (item item' value : jsstring) :
  item <> item' -> getItem (setItem item value store) item' = getItem store item'.
Proof. intros H. unfold getItem, setItem, Storage. now apply lookup_insert_ne. Qed.

(** X28. The key travels from the QKD page to the simulation page through
    storage: after [handleProceedToSuperdense] with a result, the item
    [qkdKey] is the key of the result, items other than [qkdKey] and
    [qkdSecure] are as before, and a non-empty key is the one [loadQKDKey]
    returns and the run reads, with no warning on mount.  An empty key is
    stored but counts as none; a result without a key is stored as the text
    [undefined], which the simulation page takes for a key.  Without a result
    nothing is stored and there is no navigation. *)
Theorem key_handover (results : QkdResults) (simulateEve : bool) (store : Storage) :
  let store' := fst (handleProceedToSuperdense (Some results) simulateEve store) in
  getItem store' (str "qkdKey") = Some (string_of_key (qkd_key results)) /\
  (forall item, item <> str "qkdKey" -> item <> str "qkdSecure" ->
     getItem store' item = getItem store item) /\
  (forall key, qkd_key results = Some key -> key <> [] ->
     loadQKDKey store' = Some key /\
     mounted_error (mount store') = None /\
     forall state, Page.storedQkdKey (inputs store' state) = Some key) /\
  (qkd_key results = Some [] -> loadQKDKey store' = None) /\
  (qkd_key results = None -> loadQKDKey store' = Some (str "undefined")) /\
  handleProceedToSuperdense None simulateEve store = (store, None).
Proof.
  cbn zeta. cbn [handleProceedToSuperdense fst].
  assert (Hget : getItem (setItem (str "qkdSecure") (string_of_bool (secure results))
                            (setItem (str "qkdKey") (string_of_key (qkd_key results)) store))
                   (str "qkdKey")
                 = Some (string_of_key (qkd_key results))).
  { rewrite getItem_setItem_ne by discriminate. apply getItem_setItem_eq. }
  split; [exact Hget|]. split; [|split; [|split; [|split; [|reflexivity]]]].
  - intros item H1 H2. rewrite !getItem_setItem_ne by congruence. reflexivity.
  - intros key Hkey Hne. rewrite Hkey in Hget. cbn [string_of_key] in Hget.
    pose proof (loadQKDKey_spec
                  (setItem (str "qkdSecure") (string_of_bool (secure results))
                     (setItem (str "qkdKey") (string_of_key (qkd_key results)) store)))
      as Hspec.
    rewrite Hkey in Hspec. cbn [string_of_key] in Hspec. rewrite Hget in Hspec.
    destruct key as [|c s]; [congruence|]. destruct Hspec as [Hload Herr].
    rewrite Hkey. cbn [string_of_key].
    split; [exact Hload|]. split; [exact Herr|].
    intros state. cbn [inputs Page.storedQkdKey]. exact Hget.
  - intros Hkey. unfold loadQKDKey. rewrite Hget, Hkey. reflexivity.
  - intros Hkey. unfold loadQKDKey. rewrite Hget, Hkey. reflexivity.
Qed.

Lemma parseInt_char_blank (k : ascii) :
  is_digit k = false \/ k = "0"%char ->
  parseInt_char (Some k) = None \/ parseInt_char (Some k) = Some 0.
Proof.
  intros [H | ->]; [|right; reflexivity].
  destruct k as [[] [] [] [] [] [] [] []]; vm_compute in H |- *;
    first [left; reflexivity | discriminate H].
Qed.

Lemma key_bit_blank (key : jsstring) (z : Z) :
  Forall (fun k => is_digit k = false \/ k = "0"%char) key ->
  parseInt_char (char_at key z) = None \/ parseInt_char (char_at key z) = Some 0.
Proof.
  intros Hkey. unfold char_at. destruct (z <? 0); [left; reflexivity|].
  destruct (key !! Z.to_nat z) as [k|] eqn:Hk; [|left; reflexivity].
  apply parseInt_char_blank. exact (Forall_lookup_1 _ _ _ _ Hkey Hk).
Qed.

Lemma pad_from_blank (key : jsstring) (off : Z) (cs : jsstring) :
  Forall (fun k => is_digit k = false \/ k = "0"%char) key -> bitstring cs ->
  forall i, pad_from key off i cs = cs.
Proof.
  intros Hkey. induction 1 as [|c cs Hc _ IH]; intros i; [reflexivity|].
  cbn [pad_from]. rewrite IH.
  destruct (key_bit_blank key (Z.rem (off + i) (Z.of_nat (length key))) Hkey) as [-> | ->];
    destruct Hc as [-> | ->]; reflexivity.
Qed.

Lemma char_pad_from_blank (key : jsstring) (cs : jsstring) :
  Forall (fun k => is_digit k = false \/ k = "0"%char) key -> bitstring cs ->
  forall i, char_pad_from key i cs = cs.
Proof.
  intros Hkey. induction 1 as [|c cs Hc _ IH]; intros i; [reflexivity|].
  cbn [char_pad_from]. rewrite IH.
  destruct (key_bit_blank key (Z.rem i (Z.of_nat (length key))) Hkey) as [-> | ->];
    destruct Hc as [-> | ->]; reflexivity.
Qed.

(** X29. A key with no digit other than [0] encrypts nothing: a key
    character that is not a digit is read as [NaN] and counts as [0] in the
    exclusive or, so both pads give back the bits they were given.  The text
    [undefined], stored for a missing key, is such a key. *)
Theorem key_without_digits (key chunk : jsstring) (keyOffset : Z) :
  bitstring chunk ->
  Forall (fun k => is_digit k = false \/ k = "0"%char) key ->
  oneTimePadEncrypt chunk key keyOffset = chunk /\
  oneTimePadDecrypt chunk key keyOffset = chunk /\
  otpEncrypt chunk key = chunk.
Proof.
  intros Hchunk Hkey. unfold oneTimePadEncrypt, oneTimePadDecrypt, otpEncrypt.
  destruct key as [|k key]; [repeat split; now destruct chunk|].
  destruct chunk as [|c chunk]; [repeat split|].
  rewrite pad_from_blank, char_pad_from_blank by assumption.
  repeat split.
Qed.

Lemma key_without_digits_witness :
  oneTimePadEncrypt (str "0110") (str "undefined") 2 = str "0110" /\
  oneTimePadDecrypt (str "0110") (str "undefined") 2 = str "0110" /\
  otpEncrypt (str "0110") (str "undefined") = str "0110".
Proof.
  apply (key_without_digits (str "undefined") (str "0110") 2).
  - repeat (apply Forall_cons_2; [(left; reflexivity) || (right; reflexivity)|]).
    constructor.
  - repeat (apply Forall_cons_2; [left; reflexivity|]). constructor.
Defined.
